(** * Texas Hold'em odds simulator: the Monte Carlo core of [src/App.jsx]

    A shallow embedding of [makeDeck], [shuffleInPlace], [simulateEquity]
    and the [run] handler of the [App] component, with the arrays the code
    shares and mutates kept in an explicit store.  Counters are integers,
    a finite number is the rational it denotes, the rates of the result
    are rounded to binary64 as the divisions and the addition of the code
    round them, and the hand evaluator of pokersolver is a parameter. *)

From Stdlib Require Import QArith Qround Qabs Qpower Qminmax Lqa.
From Stdlib Require Import Floats.SpecFloat.
From stdpp Require Import base tactics option list sets gmap strings.

Local Open Scope nat_scope.

(** ** JavaScript values and arrays *)

(** The values that flow through the cards arrays: strings (the empty
    string is the blank selection of a picker) and [undefined] (a read
    past the end of an array). *)
Abbreviation val := (option string).

Definition undefined : val := None.

(** The empty string, the value of a picker that holds no card. *)
Definition blank : string := EmptyString.

(** [Boolean(v)]: [undefined] and the empty string are falsy. *)
Definition truthy (v : val) : bool :=
  match v with
  | Some s => bool_decide (s ≠ blank)
  | None => false
  end.

(** [arr[i]]: reading past the end yields [undefined]. *)
Definition aget (arr : list val) (i : nat) : val := default undefined (arr !! i).

(** [arr[i] = v]: a write past the end extends the array, the skipped
    slots reading [undefined]. *)
Definition aset (arr : list val) (i : nat) (v : val) : list val :=
  if decide (i < length arr) then <[i:=v]> arr
  else arr ++ replicate (i - length arr) undefined ++ [v].

(** [arr.filter(Boolean)] *)
Definition filterBoolean (arr : list val) : list val := filter (λ v, truthy v) arr.

(** ** Cards and the deck *)

Definition SUITS : list string := ["s"; "h"; "d"; "c"].
Definition RANKS : list string :=
  ["2"; "3"; "4"; "5"; "6"; "7"; "8"; "9"; "T"; "J"; "Q"; "K"; "A"].

(** [RANKS.flatMap((r) => SUITS.map((s) => r + s))] *)
Definition ALL_CARDS : list val :=
  flat_map (λ r, map (λ s, Some (r +:+ s)) SUITS) RANKS.

(** [ALL_CARDS.filter((c) => !exclude.has(c))] *)
Definition makeDeck (exclude : gset val) : list val :=
  filter (λ c, c ∉ exclude) ALL_CARDS.

(** ** The store *)

(** Arrays are objects: a variable holds a location, and the store maps
    every allocated location to the array's current contents.  Locations
    are allocated in sequence. *)
Abbreviation loc := nat (only parsing).
Abbreviation heap := (list (list val)).

Definition hread (h : heap) (l : loc) : list val := default [] (h !! l).

(** A fresh array holding [arr] (array literals, [slice], [filter]). *)
Definition halloc (h : heap) (arr : list val) : loc * heap := (length h, h ++ [arr]).

(** [l[i] = v] on the array at location [l]. *)
Definition hwrite (h : heap) (l : loc) (i : nat) (v : val) : heap :=
  <[l := aset (hread h l) i v]> h.

(** ** The random source *)

(** [Math.random()] yields a number in the half-open unit interval; the
    [k]-th call of a run returns [draw k], a rational. *)
Record RandomSource : Type := {
  draw : nat → Q;
  draw_range : ∀ k, (0 <= draw k)%Q ∧ (draw k < 1)%Q
}.

(** [Math.floor(Math.random() * (i + 1))] at the [k]-th call. *)
Definition pick (rnd : RandomSource) (k i : nat) : nat :=
  Z.to_nat (Qfloor (draw rnd k * inject_Z (Z.of_nat (i + 1)))).

(** The mutable world of a run: the store and the number of
    [Math.random()] calls made so far. *)
Record world : Type := World { w_heap : heap; w_calls : nat }.

(** ** Requests, results and what a run leaves behind *)

(** The argument object of [simulateEquity]; [hero] and [board] are
    references to the caller's arrays, [players] is an integer count and
    [iterations] a finite number, whole or not. *)
Record Request : Type := {
  players : Z;
  hero : loc;
  board : loc;
  iterations : Q
}.

(** The passes of [for (let t = 0; t < iterations; t++)]: one for each
    of the integers 0, 1, 2, ... that is below [iterations]. *)
Definition passes (iterations : Q) : nat := Z.to_nat (Qceiling iterations).

(** *** Binary64 arithmetic *)

(** The result of an arithmetic operation on numbers is the exact result
    rounded to binary64: to the nearest number with 53 significant bits
    whose last bit is not below [2 ^ -1074], and to the one with an even
    last bit when two are equally near.  No value of this program comes
    near [2 ^ 1024], and overflow is left out. *)

(** The integer nearest to [x], the even one of two that are equally
    near. *)
Definition round_half_even (x : Q) : Z :=
  let f := Qfloor x in
  match (x - inject_Z f ?= (1 # 2))%Q with
  | Lt => f
  | Gt => (f + 1)%Z
  | Eq => if Z.even f then f else (f + 1)%Z
  end.

(** For [0 < x], the exponent [e] with [2 ^ e <= x < 2 ^ (e + 1)]. *)
Definition binade (x : Q) : Z :=
  let d := (Z.log2 (Qnum x) - Z.log2 (Zpos (Qden x)))%Z in
  if Qle_bool (2 ^ d) x then d else (d - 1)%Z.

Definition round64 (x : Q) : Q :=
  if Qeq_bool x 0 then 0%Q
  else
    let e := Z.max (binade (Qabs x) - 52) (-1074) in
    (inject_Z (round_half_even (x / 2 ^ e)) * 2 ^ e)%Q.

(** Half the distance from 1 to the next binary64 number: the largest
    relative error of a rounding in the normal range. *)
Definition u64 : Q := 1 # (2 ^ 53).

(** A rate as JavaScript computes it: [None] is the non-finite result of
    a division by zero. *)
Abbreviation number := (option Q).

(** [a / b] for a counter [a]. *)
Definition jsdiv (a : Z) (b : Q) : number :=
  if Qeq_bool b 0 then None else Some (round64 (inject_Z a / b)).

(** [a + b] *)
Definition jsadd (a b : number) : number :=
  match a, b with Some x, Some y => Some (round64 (x + y)) | _, _ => None end.

(** [a / 2] *)
Definition jshalf (a : number) : number :=
  match a with Some x => Some (round64 (x / 2)) | None => None end.

(** The same division and addition in the Standard Library's
    specification of IEEE 754 arithmetic, at the parameters of binary64,
    to compare [round64] with. *)
Definition Z2SF (z : Z) : spec_float := binary_normalize 53 1024 z 0 false.

Definition SF2Q (f : spec_float) : number :=
  match f with
  | S754_zero _ => Some 0%Q
  | S754_finite s m e =>
      Some (inject_Z (if s then Z.neg m else Z.pos m) * 2 ^ e)%Q
  | _ => None
  end.

Definition same_number (a b : number) : bool :=
  match a, b with
  | Some x, Some y => Qeq_bool x y
  | None, None => true
  | _, _ => false
  end.

(** The object [{ win, tie, loss, equity, iterations }]. *)
Record SimulationResult : Type := {
  win : number;
  tie : number;
  loss : number;
  equity : number;
  res_iterations : Q
}.

Inductive Completion : Type :=
  | Returned (r : SimulationResult)
  | Threw (message : string).

Inductive Outcome : Type := Win | Tie | Loss.

#[global] Instance Outcome_eq_dec : EqDecision Outcome.
Proof. solve_decision. Defined.

(** The counters [wins], [ties], [losses]. *)
Record Tally : Type := { wins : Z; ties : Z; losses : Z }.

Definition bump (o : Outcome) (c : Tally) : Tally :=
  match o with
  | Win => {| wins := wins c + 1; ties := ties c; losses := losses c |}
  | Tie => {| wins := wins c; ties := ties c + 1; losses := losses c |}
  | Loss => {| wins := wins c; ties := ties c; losses := losses c + 1 |}
  end.

(** What one pass through the body of the trial loop computed: the
    shuffled deck, the completed board, the opponents' hole cards, the
    value the cursor [idx] ended on, and the counter it incremented. *)
Record Trial : Type := {
  t_deck : list val;
  t_simBoard : list val;
  t_opponents : list (list val);
  t_idx : nat;
  t_outcome : Outcome
}.

(** A call of [simulateEquity] seen from outside: how it completed, the
    final counters, the trials it executed in order, and the world it
    left. *)
Record Execution : Type := {
  completion : Completion;
  tally : Tally;
  trace : list Trial;
  final : world
}.

(** ** Hand ranking (pokersolver) *)

(** A solved hand is an object; [hand_id] is its identity within a trial
    and [hand_rank] its strength, an integer that orders hands the way
    pokersolver compares them (equal strengths split the pot). *)
Abbreviation Hand := (nat * Z)%type.
Definition hand_id (h : Hand) : nat := fst h.
Definition hand_rank (h : Hand) : Z := snd h.

(** Modelled from the spec: [Hand.winners] of the pokersolver package,
    which is not part of this repository.  It returns, in their order,
    the hands that attain the maximal strength among those given. *)
Definition winners (hands : list Hand) : list Hand :=
  filter (λ h, Forall (λ h', (hand_rank h' <= hand_rank h)%Z) hands) hands.

(** The best strength among the hero and the opponents. *)
Definition max_rank (heroRank : Z) (oppRanks : list Z) : Z :=
  foldr Z.max heroRank oppRanks.

(** ** The shuffle on the contents of the array *)

(** [[arr[i], arr[j]] = [arr[j], arr[i]]]: the right-hand side is read
    first, then [arr[i]] and [arr[j]] are assigned in that order. *)
Definition swap (a : list val) (i j : nat) : list val :=
  aset (aset a i (aget a j)) j (aget a i).

(** The exchanges of the loop entered at index [i], the index exchanged
    with at each pass taken from [js]. *)
Fixpoint shuffle_with (i : nat) (js : list nat) (a : list val) : list val :=
  match i, js with
  | S i', j :: js' => shuffle_with i' js' (swap a i j)
  | _, _ => a
  end.

(** The indices the random source picks for the loop entered at index
    [i] when [k] calls have been made before. *)
Fixpoint picks (rnd : RandomSource) (i k : nat) : list nat :=
  match i with
  | 0 => []
  | S i' => pick rnd k i :: picks rnd i' (S k)
  end.

(** One index per pass, each within [0..i] for the pass at index [i]. *)
Fixpoint choices_ok (i : nat) (js : list nat) : Prop :=
  match i, js with
  | 0, [] => True
  | S i', j :: js' => j ≤ i ∧ choices_ok i' js'
  | _, _ => False
  end.

Section Engine.

(** The random source of the run, and [Hand.solve] of pokersolver
    reduced to the totally ordered strength of the best five-card hand
    among the cards given. *)
Variable rnd : RandomSource.
Variable solve : list val → Z.

(** *** [shuffleInPlace] *)

(** The loop [for (i = arr.length - 1; i > 0; i--)], entered with the
    current value of [i]. *)
Fixpoint shuffle_loop (i : nat) (arr : loc) (w : world) : world :=
  match i with
  | 0 => w
  | S i' =>
      let j := pick rnd (w_calls w) i in
      let ai := aget (hread (w_heap w) arr) i in
      let aj := aget (hread (w_heap w) arr) j in
      let h1 := hwrite (w_heap w) arr i aj in
      let h2 := hwrite h1 arr j ai in
      shuffle_loop i' arr (World h2 (S (w_calls w)))
  end.

Definition shuffleInPlace (arr : loc) (w : world) : loc * world :=
  (arr, shuffle_loop (length (hread (w_heap w) arr) - 1) arr w).

(** *** One trial *)

(** [if (!simBoard[i]) simBoard[i] = deck[idx++]] *)
Definition fill_step (deck simBoard : loc) (s : nat * heap) (i : nat) : nat * heap :=
  let '(idx, h) := s in
  if truthy (aget (hread h simBoard) i) then (idx, h)
  else (S idx, hwrite h simBoard i (aget (hread h deck) idx)).

(** [for (let i = 0; i < 5; i++)] *)
Definition fill_board (deck simBoard : loc) (idx : nat) (h : heap) : nat * heap :=
  foldl (fill_step deck simBoard) (idx, h) (seq 0 5).

(** The opponents loop, [n] passes left: two cards each, pushed in the
    order dealt. *)
Fixpoint deal (n : nat) (deck : list val) (idx : nat) : list (list val) * nat :=
  match n with
  | 0 => ([], idx)
  | S n' =>
      let c1 := aget deck idx in
      let c2 := aget deck (S idx) in
      let '(rest, idx') := deal n' deck (S (S idx)) in
      ([c1; c2] :: rest, idx')
  end.

(** Lines 124-136: solve every hand, ask for the winners, and pick the
    counter to increment.  The hero's hand is object number 0. *)
Definition classify (heroCards simBoard : list val) (opponents : list (list val)) : Outcome :=
  let heroHand : Hand := (0, solve (heroCards ++ simBoard)) in
  let oppHands : list Hand := imap (λ p h, (S p, solve (h ++ simBoard))) opponents in
  let all := heroHand :: oppHands in
  let ws := winners all in
  if decide (length ws = 1) then
    if decide (hand_id <$> ws !! 0 = Some (hand_id heroHand)) then Win else Loss
  else
    if decide (hand_id heroHand ∈ hand_id <$> ws) then Tie else Loss.

(** The body of the loop over [t].  [makeDeck(known).slice()] is the one
    fresh array the shuffle works on; [board.slice()] is a second one. *)
Definition trial (known : gset val) (req : Request) (w : world) : Trial * world :=
  let '(fresh, h1) := halloc (w_heap w) (makeDeck known) in
  let '(deck, w2) := shuffleInPlace fresh (World h1 (w_calls w)) in
  let '(simBoard, h3) := halloc (w_heap w2) (hread (w_heap w2) (board req)) in
  let '(idx, h4) := fill_board deck simBoard 0 h3 in
  let '(opponents, idx') :=
    deal (Z.to_nat (players req - 1)) (hread h4 deck) idx in
  let o := classify (hread h4 (hero req)) (hread h4 simBoard) opponents in
  ({| t_deck := hread h4 deck; t_simBoard := hread h4 simBoard;
      t_opponents := opponents; t_idx := idx'; t_outcome := o |},
   World h4 (w_calls w2)).

(** [for (let t = 0; t < iterations; t++)], [n] passes left. *)
Fixpoint trials (n : nat) (known : gset val) (req : Request)
    (c : Tally) (log : list Trial) (w : world) : Tally * list Trial * world :=
  match n with
  | 0 => (c, log, w)
  | S n' =>
      let '(t, w') := trial known req w in
      trials n' known req (bump (t_outcome t) c) (log ++ [t]) w'
  end.

(** *** The trial on the contents of the arrays *)

(** [fill_step] on the contents of [deck] and [simBoard]. *)
Definition fill_step_list (deck : list val) (s : nat * list val) (i : nat)
    : nat * list val :=
  let '(idx, b) := s in
  if truthy (aget b i) then (idx, b)
  else (S idx, aset b i (aget deck idx)).

Definition fill_list (deck : list val) (idx : nat) (b : list val) : nat * list val :=
  foldl (fill_step_list deck) (idx, b) (seq 0 5).

(** The deck a trial shuffles when [k] random calls came before it. *)
Definition shuffled (known : gset val) (k : nat) : list val :=
  let n := length (makeDeck known) - 1 in
  shuffle_with n (picks rnd n k) (makeDeck known).

(** What [trial] records, from the contents of the caller's arrays. *)
Definition trial_of (known : gset val) (heroCards boardCards : list val)
    (opps : nat) (k : nat) : Trial :=
  let d := shuffled known k in
  let '(idx, b) := fill_list d 0 boardCards in
  let '(opponents, idx') := deal opps d idx in
  {| t_deck := d; t_simBoard := b; t_opponents := opponents; t_idx := idx';
     t_outcome := classify heroCards b opponents |}.

(** *** [simulateEquity] *)

Definition duplicate_message : string :=
  "Duplicate cards detected. Please fix your selections.".
Definition players_message : string := "Players must be between 2 and 10.".
Definition hero_message : string := "Please choose both of your hole cards.".

(** [[...hero, ...board].filter(Boolean)] *)
Definition selected (req : Request) (h : heap) : list val :=
  filterBoolean (hread h (hero req) ++ hread h (board req)).

Definition known_of (req : Request) (h : heap) : gset val :=
  list_to_set (selected req h).

Definition zero_tally : Tally := {| wins := 0; ties := 0; losses := 0 |}.

Definition simulateEquity (req : Request) (w : world) : Execution :=
  let known := known_of req (w_heap w) in
  let thrown msg :=
    {| completion := Threw msg; tally := zero_tally; trace := []; final := w |} in
  if decide (size known ≠ length (selected req (w_heap w))) then
    thrown duplicate_message
  else if decide (players req < 2 ∨ players req > 10)%Z then
    thrown players_message
  else if negb (truthy (aget (hread (w_heap w) (hero req)) 0))
          || negb (truthy (aget (hread (w_heap w) (hero req)) 1)) then
    thrown hero_message
  else
    let '(c, log, w') :=
      trials (passes (iterations req)) known req zero_tally [] w in
    let win := jsdiv (wins c) (iterations req) in
    let tie := jsdiv (ties c) (iterations req) in
    let loss := jsdiv (losses c) (iterations req) in
    let equity := jsadd win (jshalf tie) in
    {| completion :=
         Returned {| win := win; tie := tie; loss := loss; equity := equity;
                     res_iterations := iterations req |};
       tally := c; trace := log; final := w' |}.

(** *** The [run] handler *)

(** The component state [run] reads: [players], the [hero] and [board]
    arrays, and [iters], a finite number, whole or not, where [None] is
    a value that is not a number. *)
Record AppState : Type := {
  s_players : Z;
  s_hero : loc;
  s_board : loc;
  s_iters : option Q
}.

(** [Math.max(1000, Math.min(200000, Number(iters) || 0))] *)
Definition clampIterations (iters : option Q) : Q :=
  Qmax 1000 (Qmin 200000 (default 0%Q iters)).

Definition run_request (s : AppState) : Request :=
  {| players := s_players s; hero := s_hero s; board := s_board s;
     iterations := clampIterations (s_iters s) |}.

(** [run] calls [simulateEquity] on that request from a timer callback.
    A returned object resolves the promise and reaches [setResult]; an
    exception leaves the callback without settling the promise.  Only
    the call itself is modelled. *)
Definition run (s : AppState) (w : world) : Execution :=
  simulateEquity (run_request s) w.

(** The state [s] after [setIters(iters)]. *)
Definition with_iters (s : AppState) (iters : option Q) : AppState :=
  {| s_players := s_players s; s_hero := s_hero s; s_board := s_board s;
     s_iters := iters |}.

End Engine.


(** ** Requests as the specification describes them *)

(** The three guards of [simulateEquity] all pass. *)
Definition valid_request (req : Request) (h : heap) : Prop :=
  NoDup (selected req h)
  ∧ (2 <= players req <= 10)%Z
  ∧ truthy (aget (hread h (hero req)) 0)
  ∧ truthy (aget (hread h (hero req)) 1).

(** The player count is outside [2..10], or a hole card is missing, or a
    card is selected twice across [hero] and [board]. *)
Definition rejected (req : Request) (h : heap) : Prop :=
  (players req < 2 ∨ players req > 10)%Z
  ∨ (¬ truthy (aget (hread h (hero req)) 0) ∨ ¬ truthy (aget (hread h (hero req)) 1))
  ∨ ¬ NoDup (selected req h).

(** The shape the application gives a request: [hero] and [board] are
    allocated arrays, two hole-card slots and at most five board slots. *)
Definition well_formed (req : Request) (h : heap) : Prop :=
  hero req < length h ∧ board req < length h
  ∧ length (hread h (hero req)) = 2 ∧ length (hread h (board req)) ≤ 5.

(** The board slots the trial loop fills: those among the first five that
    are falsy. *)
Definition unknown_slots (b : list val) : nat :=
  length (filter (λ i, ¬ truthy (aget b i)) (seq 0 5)).

Definition required_cards (req : Request) (h : heap) : nat :=
  2 * Z.to_nat (players req - 1) + unknown_slots (hread h (board req)).

(** The cards a trial put on the table from the deck. *)
Definition dealt (t : Trial) : list val := take (t_idx t) (t_deck t).

(** ** Counting outcomes *)

Definition tally_total (c : Tally) : Z := (wins c + ties c + losses c)%Z.

Definition count_outcome (o : Outcome) (log : list Trial) : Z :=
  Z.of_nat (length (filter (λ t, t_outcome t = o) log)).

Definition tally_matches (c : Tally) (log : list Trial) : Prop :=
  wins c = count_outcome Win log ∧ ties c = count_outcome Tie log
  ∧ losses c = count_outcome Loss log.

(** ** A concrete table, for the examples *)

(** A random source that cycles through 0/7, 1/7, ..., 6/7. *)
Definition sample_source : RandomSource :=
  {| draw := λ k, (Z.of_nat (k mod 7) # 7)%Q;
     draw_range := λ k,
       conj (ltac:(unfold Qle; simpl; lia) : (0 <= Z.of_nat (k mod 7) # 7)%Q)
            (ltac:(unfold Qlt; simpl; pose proof (Nat.mod_upper_bound k 7); lia)
              : (Z.of_nat (k mod 7) # 7 < 1)%Q) |}.


(** A stand-in evaluator: the number of aces among the cards. *)
Definition sample_solve (cards : list val) : Z :=
  Z.of_nat (length (filter (λ c, c ∈ [Some "As"; Some "Ah"; Some "Ad"; Some "Ac"]) cards)).

(** Hero holds As Ks and the flop is Qd Jd Td; turn and river are blank. *)
Definition sample_heap : heap :=
  [[Some "As"; Some "Ks"]; [Some "Qd"; Some "Jd"; Some "Td"; Some blank; Some blank]].

Definition sample_world : world := World sample_heap 0.

Definition sample_request : Request :=
  {| players := 3; hero := 0; board := 1; iterations := 2 |}.

(** Hero picked As twice. *)
Definition duplicate_world : world :=
  World [[Some "As"; Some "As"]; [Some blank; Some blank; Some blank; Some blank; Some blank]] 0.

(** * The page: card labels, pickers and the handlers of [App] *)


(** ** Card labels *)

(** The object [{ s: "♠", h: "♥", d: "♦", c: "♣" }]. *)
Definition suitMap : gmap string string :=
  {[ "s" := "♠"; "h" := "♥"; "d" := "♦"; "c" := "♣" ]}.

(** [s[i]]: the one-character string at index [i], [undefined] past the
    end.  Strings are sequences of one-byte characters, as the cards are. *)
Definition char_at (s : string) (i : nat) : val :=
  (λ a, String a EmptyString) <$> String.get i s.

(** A value as [+] appends it to a string. *)
Definition to_text (v : val) : string := default "undefined" v.

(** [cardLabel(c)] *)
Definition cardLabel (c : val) : string :=
  match c with
  | Some s =>
      if truthy c then
        let rank := char_at s 0 in
        let suit := char_at s 1 in
        let symbol : val := suit ≫= (λ k, suitMap !! k) in
        to_text rank +:+ to_text symbol
      else "--"
  | None => "--"
  end.

(** ** The card picker *)

(** [isUsed] of a picker showing [value], given the set [used] of the
    cards selected on the page. *)
Definition isUsed (used : gset val) (value c : val) : bool :=
  bool_decide (c ∈ used) && bool_decide (c ≠ value).

(** ** The page *)

(** The state of [App]: the four inputs of [run], the store that holds
    the [hero] and [board] arrays, and [busy], [result] and [error]. *)
Record Page : Type := {
  p_state : AppState;
  p_world : world;
  p_busy : bool;
  p_result : option SimulationResult;
  p_error : string
}.

Definition p_heap (p : Page) : heap := w_heap (p_world p).
Definition heroCards (p : Page) : list val := hread (p_heap p) (s_hero (p_state p)).
Definition boardCards (p : Page) : list val := hread (p_heap p) (s_board (p_state p)).

(** [new Set([...hero, ...board].filter(Boolean))], the memo [used]. *)
Definition used (p : Page) : gset val :=
  list_to_set (filterBoolean (heroCards p ++ boardCards p)).

(** The values of the [useState] calls. *)
Definition initial_page : Page :=
  {| p_state := {| s_players := 6; s_hero := 0; s_board := 1; s_iters := Some 20000%Q |};
     p_world := World [[Some "As"; Some "Ks"];
                       [Some blank; Some blank; Some blank; Some blank; Some blank]] 0;
     p_busy := false; p_result := None; p_error := blank |}.

(** A state setter given a new array: the array is allocated, the old
    one stays as it was. *)
Definition set_hero (arr : list val) (p : Page) : Page :=
  let '(l, h) := halloc (p_heap p) arr in
  {| p_state := {| s_players := s_players (p_state p); s_hero := l;
                   s_board := s_board (p_state p); s_iters := s_iters (p_state p) |};
     p_world := World h (w_calls (p_world p));
     p_busy := p_busy p; p_result := p_result p; p_error := p_error p |}.

Definition set_board (arr : list val) (p : Page) : Page :=
  let '(l, h) := halloc (p_heap p) arr in
  {| p_state := {| s_players := s_players (p_state p); s_hero := s_hero (p_state p);
                   s_board := l; s_iters := s_iters (p_state p) |};
     p_world := World h (w_calls (p_world p));
     p_busy := p_busy p; p_result := p_result p; p_error := p_error p |}.

(** [setHero(([_, b]) => [c, b])] *)
Definition setHero0 (c : val) (p : Page) : Page :=
  set_hero [c; aget (heroCards p) 1] p.

(** [setHero(([a]) => [a, c])] *)
Definition setHero1 (c : val) (p : Page) : Page :=
  set_hero [aget (heroCards p) 0; c] p.

(** [setBoard((arr) => arr.map((x, j) => (i === j ? v : x)))] *)
Definition setBoardAt (i : nat) (v : val) (p : Page) : Page :=
  set_board (imap (λ j x, if decide (i = j) then v else x) (boardCards p)) p.

(** [setPlayers(Math.max(2, Math.min(10, Number(e.target.value))))], the
    value typed being an integer [x]. *)
Definition setPlayers (x : Z) (p : Page) : Page :=
  {| p_state := {| s_players := Z.max 2 (Z.min 10 x); s_hero := s_hero (p_state p);
                   s_board := s_board (p_state p); s_iters := s_iters (p_state p) |};
     p_world := p_world p;
     p_busy := p_busy p; p_result := p_result p; p_error := p_error p |}.

(** [setIters(Number(e.target.value))]: the number typed is stored as it
    is, whole or not. *)
Definition setIters (x : option Q) (p : Page) : Page :=
  {| p_state := with_iters (p_state p) x;
     p_world := p_world p;
     p_busy := p_busy p; p_result := p_result p; p_error := p_error p |}.

(** [clearAll] *)
Definition clearAll (p : Page) : Page :=
  let p1 := set_hero [Some blank; Some blank] p in
  let p2 := set_board [Some blank; Some blank; Some blank; Some blank; Some blank] p1 in
  {| p_state := p_state p2; p_world := p_world p2;
     p_busy := p_busy p2; p_result := None; p_error := blank |}.

(** The pickers of the page: the two hole cards and one per entry of the
    [board] array. *)
Inductive Slot : Type := Hole0 | Hole1 | BoardSlot (i : nat).

Definition slot_exists (slot : Slot) (p : Page) : bool :=
  match slot with
  | BoardSlot i => bool_decide (i < length (boardCards p))
  | _ => true
  end.

(** The [value] prop of a picker. *)
Definition slot_value (slot : Slot) (p : Page) : val :=
  match slot with
  | Hole0 => aget (heroCards p) 0
  | Hole1 => aget (heroCards p) 1
  | BoardSlot i => aget (boardCards p) i
  end.

(** The [onChange] prop of a picker. *)
Definition slot_change (slot : Slot) (v : val) (p : Page) : Page :=
  match slot with
  | Hole0 => setHero0 v p
  | Hole1 => setHero1 v p
  | BoardSlot i => setBoardAt i v p
  end.

Section Page.

Variable rnd : RandomSource.
Variable solve : list val → Z.

(** The click on the run button.  The button is disabled while [busy].
    [run] clears [error] and [result] and sets [busy]; when
    [simulateEquity] returns, the promise resolves, [setResult] gets the
    object and the [finally] block resets [busy].  When it throws, the
    exception leaves the timer callback, the promise stays pending, and
    neither the [catch] nor the [finally] block runs.  The click, the
    timer callback and the continuation of [run] are taken as one step:
    no other event is handled in between. *)
Definition click_run (p : Page) : Page :=
  if p_busy p then p
  else
    let e := run rnd solve (p_state p) (p_world p) in
    match completion e with
    | Returned r =>
        {| p_state := p_state p; p_world := final e;
           p_busy := false; p_result := Some r; p_error := blank |}
    | Threw _ =>
        {| p_state := p_state p; p_world := final e;
           p_busy := true; p_result := None; p_error := blank |}
    end.

(** What a user can do on the page.  An option button of a picker exists
    for each of [ALL_CARDS] and is disabled when [isUsed].  The players
    field is given an integer; the iterations field any finite number,
    or a text that [Number] turns into [NaN]. *)
Inductive Event : Type :=
  | ClickOption (slot : Slot) (c : val)
  | ClickClear (slot : Slot)
  | ClickReset
  | TypePlayers (x : Z)
  | TypeIters (x : option Q)
  | ClickRun.

Definition handle (p : Page) (ev : Event) : Page :=
  match ev with
  | ClickOption slot c =>
      if slot_exists slot p && bool_decide (c ∈ ALL_CARDS)
         && negb (isUsed (used p) (slot_value slot p) c)
      then slot_change slot c p else p
  | ClickClear slot =>
      if slot_exists slot p then slot_change slot (Some blank) p else p
  | ClickReset => clearAll p
  | TypePlayers x => setPlayers x p
  | TypeIters x => setIters x p
  | ClickRun => click_run p
  end.

(** The page after a sequence of events, from the initial render. *)
Definition after (evs : list Event) : Page := foldl handle initial_page evs.

End Page.

(** ** Where a trial puts the cards *)

(** The falsy slots of [b] before slot [i]. *)
Definition unknown_before (b : list val) (i : nat) : nat :=
  length (filter (λ j, ¬ truthy (aget b j)) (seq 0 i)).

(** ** What the page keeps *)

(** The cards on the page, hole cards first. *)
Definition page_cards (p : Page) : list val := heroCards p ++ boardCards p.

(** The position of a picker's card in [page_cards]. *)
Definition slot_index (slot : Slot) : nat :=
  match slot with
  | Hole0 => 0
  | Hole1 => 1
  | BoardSlot i => 2 + i
  end.

(** The picker whose card is at a position of [page_cards]. *)
Definition slot_of_index (j : nat) : Slot :=
  match j with
  | 0 => Hole0
  | 1 => Hole1
  | S (S i) => BoardSlot i
  end.

(** Both arrays are allocated, two hole-card slots and five board slots,
    every slot is blank or holds one of the 52 cards, no card is held
    twice, and the player count is within [2..10]. *)
Definition page_ok (p : Page) : Prop :=
  s_hero (p_state p) < length (p_heap p)
  ∧ s_board (p_state p) < length (p_heap p)
  ∧ length (heroCards p) = 2
  ∧ length (boardCards p) = 5
  ∧ NoDup (filterBoolean (page_cards p))
  ∧ Forall (λ v, v = Some blank ∨ v ∈ ALL_CARDS) (page_cards p)
  ∧ (2 <= s_players (p_state p) <= 10)%Z.

(** The hands a trial passes to [Hand.solve]: the hero's, then one per
    opponent. *)
Definition hands_solved (heroCards : list val) (t : Trial) : list (list val) :=
  (heroCards ++ t_simBoard t) :: ((λ o, o ++ t_simBoard t) <$> t_opponents t).

(** ** What the results panel is given *)

(** What the page shows comes from a count within the range of [run].
    The four rates are numbers and none is negative.  The three outcome
    rates sum, up to the rounding of each, to the number of trials over
    the count, which is 1 when the count is whole; and for a whole count
    the equity is at most 1. *)
Definition result_ok (r : SimulationResult) : Prop :=
  let n := res_iterations r in
  let k := (inject_Z (Z.of_nat (passes n)) / n)%Q in
  (1000 <= n)%Q ∧ (n <= 200000)%Q
  ∧ ∃ qw qt ql qe,
      win r = Some qw ∧ tie r = Some qt ∧ loss r = Some ql ∧ equity r = Some qe
      ∧ (0 <= qw)%Q ∧ (0 <= qt)%Q ∧ (0 <= ql)%Q ∧ (0 <= qe)%Q
      ∧ (k * (1 - u64) <= qw + qt + ql)%Q ∧ (qw + qt + ql <= k * (1 + u64))%Q
      ∧ (k == 1 → qe <= 1)%Q.

(** * Properties *)

(** ** Arrays and the store *)

Lemma aset_lt a i v : i < length a → aset a i v = <[i:=v]> a.
Proof. intros H. unfold aset. by rewrite decide_True. Qed.

Lemma aget_lookup a i x : a !! i = Some x → aget a i = x.
Proof. intros H. unfold aget. by rewrite H. Qed.

Lemma lookup_aget a i : i < length a → a !! i = Some (aget a i).
Proof.
  intros H. destruct (lookup_lt_is_Some_2 a i H) as [x Hx].
  by rewrite (aget_lookup _ _ _ Hx).
Qed.

Lemma hread_app_l (h : heap) k l : l < length h → hread (h ++ k) l = hread h l.
Proof. intros H. unfold hread. by rewrite lookup_app_l. Qed.

Lemma hread_app_here (h : heap) a k : hread (h ++ a :: k) (length h) = a.
Proof. unfold hread. by rewrite list_lookup_middle. Qed.

Lemma hwrite_app_here (h : heap) a k i v :
  hwrite (h ++ a :: k) (length h) i v = h ++ aset a i v :: k.
Proof.
  unfold hwrite. rewrite hread_app_here.
  rewrite insert_app_r_alt by lia. by rewrite Nat.sub_diag.
Qed.

Lemma Forall_elem {A} (P : A → Prop) (l : list A) x : Forall P l → x ∈ l → P x.
Proof. intros H. by apply Forall_forall. Qed.

Lemma filterBoolean_cons_true v l :
  truthy v = true → filterBoolean (v :: l) = v :: filterBoolean l.
Proof.
  intros H. unfold filterBoolean. rewrite filter_cons_True; [done|].
  by apply Is_true_true.
Qed.

Lemma filterBoolean_cons_false v l :
  truthy v = false → filterBoolean (v :: l) = filterBoolean l.
Proof.
  intros H. unfold filterBoolean. rewrite filter_cons_False; [done|].
  by apply Is_true_false.
Qed.

Lemma aget_seq_take d m : m ≤ length d → aget d <$> seq 0 m = take m d.
Proof.
  intros Hm. apply list_eq. intros i. rewrite list_lookup_fmap.
  destruct (decide (i < m)) as [Hi|Hi].
  - rewrite lookup_seq_lt by done. rewrite lookup_take_lt by done. simpl.
    by rewrite lookup_aget by lia.
  - rewrite lookup_seq_ge by lia. by rewrite lookup_take_ge by lia.
Qed.

(** A [Set] built from a list has the size of the list exactly when the
    list has no repetition: the test of the first guard. *)
Lemma size_list_to_set_le (l : list val) : size (list_to_set (C:=gset val) l) ≤ length l.
Proof.
  induction l as [|x l IH].
  - rewrite list_to_set_nil, size_empty. done.
  - rewrite list_to_set_cons. cbn [length]. destruct (decide (x ∈ l)) as [Hin|Hin].
    + rewrite (subseteq_union_1_L {[x]})
        by (apply singleton_subseteq_l, elem_of_list_to_set, Hin).
      lia.
    + rewrite size_union
        by (apply disjoint_singleton_l; by rewrite elem_of_list_to_set).
      rewrite size_singleton. lia.
Qed.

Lemma size_list_to_set_NoDup (l : list val) :
  size (list_to_set (C:=gset val) l) = length l ↔ NoDup l.
Proof.
  split; [|apply size_list_to_set].
  induction l as [|x l IH]; intros Hsz; [constructor|].
  rewrite list_to_set_cons in Hsz. cbn [length] in Hsz.
  destruct (decide (x ∈ l)) as [Hin|Hin].
  - rewrite (subseteq_union_1_L {[x]}) in Hsz
      by (apply singleton_subseteq_l, elem_of_list_to_set, Hin).
    pose proof (size_list_to_set_le l). lia.
  - rewrite size_union in Hsz
      by (apply disjoint_singleton_l; by rewrite elem_of_list_to_set).
    rewrite size_singleton in Hsz.
    constructor; [done|]. apply IH. lia.
Qed.

(** ** The deck *)

Lemma NoDup_ALL_CARDS : NoDup ALL_CARDS.
Proof. apply (bool_decide_unpack _). by vm_compute. Qed.

Lemma makeDeck_elem exclude c :
  c ∈ makeDeck exclude ↔ c ∈ ALL_CARDS ∧ c ∉ exclude.
Proof. unfold makeDeck. rewrite list_elem_of_filter. tauto. Qed.

Lemma NoDup_makeDeck exclude : NoDup (makeDeck exclude).
Proof. apply NoDup_filter, NoDup_ALL_CARDS. Qed.

Lemma makeDeck_length (exclude : gset val) :
  (∀ c, c ∈ exclude → c ∈ ALL_CARDS) →
  length (makeDeck exclude) + size exclude = 52.
Proof.
  intros Hsub.
  pose proof (Permutation_length (filter_app_complement (λ c, c ∉ exclude) ALL_CARDS)) as Hlen.
  rewrite length_app in Hlen. change (length ALL_CARDS) with 52 in Hlen.
  rewrite <-Hlen. unfold makeDeck. f_equal.
  unfold size, set_size. simpl. apply Permutation_length.
  apply NoDup_Permutation.
  - apply NoDup_elements.
  - apply NoDup_filter, NoDup_ALL_CARDS.
  - intros c. rewrite elem_of_elements, list_elem_of_filter.
    split; [intros H; split; [tauto|auto] | intros [H _]].
    destruct (decide (c ∈ exclude)); tauto.
Qed.

Lemma makeDeck_length_ge (exclude : gset val) :
  52 ≤ length (makeDeck exclude) + size exclude.
Proof.
  pose proof (Permutation_length (filter_app_complement (λ c, c ∉ exclude) ALL_CARDS)) as Hlen.
  rewrite length_app in Hlen. change (length ALL_CARDS) with 52 in Hlen.
  fold (makeDeck exclude) in Hlen.
  assert (length (filter (λ c : val, ¬ (c ∉ exclude)) ALL_CARDS) ≤ size exclude); [|lia].
  unfold size, set_size. simpl. apply submseteq_length, NoDup_submseteq.
  - apply NoDup_filter, NoDup_ALL_CARDS.
  - intros c [Hc _]%list_elem_of_filter. apply elem_of_elements.
    destruct (decide (c ∈ exclude)); tauto.
Qed.

Lemma ALL_CARDS_order r s rk su :
  RANKS !! r = Some rk → SUITS !! s = Some su →
  ALL_CARDS !! (4 * r + s) = Some (Some (rk +:+ su)).
Proof.
  intros Hr Hs.
  do 13 (destruct r as [|r];
         [injection Hr as <-;
          do 4 (destruct s as [|s]; [injection Hs as <-; reflexivity|]); done|]).
  done.
Qed.

(** C6.  For every set of known cards (each one of the 52), [makeDeck]
    returns the universe without the known cards: a card is in the deck
    exactly when it is in [ALL_CARDS] and not known; the deck is a
    subsequence of [ALL_CARDS], which lists the cards rank by rank and
    suit by suit within a rank; it has no duplicates; and its length is
    52 minus the number of known cards. *)
Theorem makeDeck_universe_minus_known (exclude : gset val) :
  (∀ c, c ∈ exclude → c ∈ ALL_CARDS) →
  (∀ c, c ∈ makeDeck exclude ↔ c ∈ ALL_CARDS ∧ c ∉ exclude)
  ∧ makeDeck exclude `sublist_of` ALL_CARDS
  ∧ (∀ r s rk su, RANKS !! r = Some rk → SUITS !! s = Some su →
       ALL_CARDS !! (4 * r + s) = Some (Some (rk +:+ su)))
  ∧ NoDup (makeDeck exclude)
  ∧ length ALL_CARDS = 52
  ∧ length (makeDeck exclude) = 52 - size exclude.
Proof.
  intros Hsub. split_and!.
  - apply makeDeck_elem.
  - apply sublist_filter.
  - apply ALL_CARDS_order.
  - apply NoDup_makeDeck.
  - done.
  - pose proof (makeDeck_length exclude Hsub). lia.
Qed.

Lemma makeDeck_universe_minus_known_witness :
  let exclude : gset val := {[ Some "As"; Some "Ks" ]} in
  (∀ c, c ∈ makeDeck exclude ↔ c ∈ ALL_CARDS ∧ c ∉ exclude)
  ∧ makeDeck exclude `sublist_of` ALL_CARDS
  ∧ (∀ r s rk su, RANKS !! r = Some rk → SUITS !! s = Some su →
       ALL_CARDS !! (4 * r + s) = Some (Some (rk +:+ su)))
  ∧ NoDup (makeDeck exclude)
  ∧ length ALL_CARDS = 52
  ∧ length (makeDeck exclude) = 52 - size exclude.
Proof.
  apply (makeDeck_universe_minus_known {[ Some "As"; Some "Ks" ]}).
  intros c [->%elem_of_singleton| ->%elem_of_singleton]%elem_of_union.
  - apply (bool_decide_unpack _). by vm_compute.
  - apply (bool_decide_unpack _). by vm_compute.
Defined.

(** ** The shuffle *)

Lemma pick_le rnd k i : pick rnd k i ≤ i.
Proof.
  unfold pick. destruct (draw_range rnd k) as [H0 H1].
  set (n := Z.of_nat (i + 1)).
  assert (0 < n)%Z as Hn by lia.
  assert (0 <= Qfloor (draw rnd k * inject_Z n))%Z as Hlo.
  { change 0%Z with (Qfloor 0). apply Qfloor_resp_le.
    apply Qmult_le_0_compat; [done|]. change 0%Q with (inject_Z 0). rewrite <-Zle_Qle. lia. }
  assert (Qfloor (draw rnd k * inject_Z n) < n)%Z as Hhi.
  { rewrite Zlt_Qlt. eapply Qle_lt_trans; [apply Qfloor_le|].
    rewrite <-(Qmult_1_l (inject_Z n)) at 2.
    apply Qmult_lt_compat_r; [|done]. change 0%Q with (inject_Z 0). rewrite <-Zlt_Qlt. lia. }
  lia.
Qed.

Lemma picks_ok rnd i k : choices_ok i (picks rnd i k).
Proof.
  revert k. induction i as [|i IH]; intros k; simpl; [done|].
  split; [apply pick_le | apply IH].
Qed.

Lemma Qfloor_interval (x : Q) (z : Z) :
  Qfloor x = z ↔ (inject_Z z <= x)%Q ∧ (x < inject_Z (z + 1))%Q.
Proof.
  split.
  - intros <-. split; [apply Qfloor_le | apply Qlt_floor].
  - intros [Hlo Hhi].
    assert (z <= Qfloor x)%Z.
    { rewrite <-(Qfloor_Z z). by apply Qfloor_resp_le. }
    assert (Qfloor x < z + 1)%Z.
    { rewrite Zlt_Qlt. eapply Qle_lt_trans; [apply Qfloor_le|done]. }
    lia.
Qed.

Lemma pick_interval rnd k i j :
  pick rnd k i = j
  ↔ (inject_Z (Z.of_nat j) <= draw rnd k * inject_Z (Z.of_nat (i + 1)))%Q
    ∧ (draw rnd k * inject_Z (Z.of_nat (i + 1)) < inject_Z (Z.of_nat j + 1))%Q.
Proof.
  rewrite <-Qfloor_interval. unfold pick.
  assert (0 <= Qfloor (draw rnd k * inject_Z (Z.of_nat (i + 1))))%Z as Hlo.
  { destruct (draw_range rnd k) as [H0 _].
    change 0%Z with (Qfloor 0). apply Qfloor_resp_le.
    apply Qmult_le_0_compat; [done|]. change 0%Q with (inject_Z 0).
    rewrite <-Zle_Qle. lia. }
  lia.
Qed.

Lemma swap_inserts a i j :
  i < length a → j < length a →
  swap a i j = <[j := aget a i]> (<[i := aget a j]> a).
Proof.
  intros Hi Hj. unfold swap. rewrite (aset_lt a i) by done.
  rewrite aset_lt by (by rewrite length_insert). done.
Qed.

Lemma swap_length a i j : i < length a → j < length a → length (swap a i j) = length a.
Proof. intros Hi Hj. rewrite swap_inserts by done. by rewrite !length_insert. Qed.

Lemma swap_Permutation a i j : i < length a → j < length a → swap a i j ≡ₚ a.
Proof.
  intros Hi Hj. rewrite swap_inserts by done.
  apply Permutation_insert_swap; by apply lookup_aget.
Qed.

Lemma swap_app a s i j :
  i < length a → j < length a → swap (a ++ s) i j = swap a i j ++ s.
Proof.
  intros Hi Hj. rewrite !swap_inserts by (rewrite ?length_app; lia).
  unfold aget. rewrite !lookup_app_l by done.
  rewrite insert_app_l by done. rewrite insert_app_l by (by rewrite length_insert). done.
Qed.

Lemma swap_last b i j :
  length b = S i → j ≤ i →
  ∃ b', swap b i j = b' ++ [aget b j] ∧ length b' = i.
Proof.
  intros Hlen Hj.
  assert (swap b i j !! i = Some (aget b j)) as Hlast.
  { rewrite swap_inserts by lia. destruct (decide (j = i)) as [->|Hne].
    - apply list_lookup_insert_eq. rewrite length_insert. lia.
    - rewrite list_lookup_insert_ne by done. apply list_lookup_insert_eq. lia. }
  exists (take i (swap b i j)). split.
  - rewrite <-(take_drop_middle _ _ _ Hlast) at 1.
    rewrite drop_ge by (rewrite swap_length; lia). done.
  - rewrite length_take, swap_length by lia. lia.
Qed.

Lemma shuffle_with_length i js a :
  i < length a → choices_ok i js → length (shuffle_with i js a) = length a.
Proof.
  revert js a. induction i as [|i IH]; intros [|j js] a Hi Hok; simpl in *; try done.
  destruct Hok as [Hj Hok]. rewrite IH; [|rewrite swap_length; lia|done].
  apply swap_length; lia.
Qed.

Lemma shuffle_with_Permutation i js a :
  i < length a → choices_ok i js → shuffle_with i js a ≡ₚ a.
Proof.
  revert js a. induction i as [|i IH]; intros [|j js] a Hi Hok; simpl in *; try done.
  destruct Hok as [Hj Hok]. rewrite IH; [|rewrite swap_length; lia|done].
  apply swap_Permutation; lia.
Qed.

Lemma shuffle_with_app i js a s :
  i < length a → choices_ok i js →
  shuffle_with i js (a ++ s) = shuffle_with i js a ++ s.
Proof.
  revert js a. induction i as [|i IH]; intros [|j js] a Hi Hok; simpl in *; try done.
  destruct Hok as [Hj Hok]. rewrite swap_app by lia.
  apply IH; [rewrite swap_length; lia | done].
Qed.

Lemma choices_ok_0 js : choices_ok 0 js → js = [].
Proof. by destruct js. Qed.

(** Distinct choices of indices lead to distinct arrangements, and every
    arrangement is reached: the last pass decides the last element, the
    passes before it arrange the rest. *)
Lemma shuffle_with_bijective i :
  ∀ b p, length b = S i → NoDup b → p ≡ₚ b →
    ∃ js, choices_ok i js ∧ shuffle_with i js b = p ∧
          ∀ js', choices_ok i js' → shuffle_with i js' b = p → js' = js.
Proof.
  induction i as [|i IH]; intros b p Hlen Hnd Hp.
  - destruct b as [|y [|??]]; simplify_eq/=.
    apply Permutation_singleton_r in Hp as ->.
    exists []. split_and!; [done..|]. intros js' Hok _. by apply choices_ok_0.
  - assert (length p = S (S i)) as Hplen by (by rewrite Hp).
    destruct p as [|x p' _] using rev_ind; [done|].
    rewrite length_app in Hplen; simpl in Hplen.
    assert (x ∈ b) as Hx by (rewrite <-Hp; set_solver).
    apply list_elem_of_lookup in Hx as [j Hj].
    assert (j ≤ S i) as Hji by (apply lookup_lt_Some in Hj; lia).
    destruct (swap_last b (S i) j Hlen Hji) as (b' & Hsw & Hb').
    rewrite (aget_lookup _ _ _ Hj) in Hsw.
    assert (b' ++ [x] ≡ₚ b) as Hperm.
    { rewrite <-Hsw. apply swap_Permutation; lia. }
    assert (NoDup b') as Hnd'.
    { rewrite <-Hperm in Hnd. by apply NoDup_app in Hnd as (? & _ & _). }
    assert (p' ≡ₚ b') as Hp'.
    { apply (Permutation_app_inv_r [x]). by rewrite Hperm. }
    destruct (IH b' p' Hb' Hnd' Hp') as (js & Hok & Hsh & Huniq).
    exists (j :: js). split_and!.
    + done.
    + simpl. rewrite Hsw, shuffle_with_app by (done || lia). by rewrite Hsh.
    + intros [|j2 js2] Hok2 Hsh2; [done|]. destruct Hok2 as [Hj2 Hok2].
      simpl in Hsh2.
      destruct (swap_last b (S i) j2 Hlen Hj2) as (b2 & Hsw2 & Hb2).
      rewrite Hsw2, shuffle_with_app in Hsh2 by (done || lia).
      apply app_inj_tail in Hsh2 as [Hsh2 Hx2].
      assert (j2 = j) as ->.
      { eapply NoDup_lookup; [exact Hnd| |exact Hj].
        rewrite lookup_aget by lia. by rewrite Hx2. }
      rewrite Hsw in Hsw2. apply app_inj_tail in Hsw2 as [<- _].
      f_equal. by apply Huniq.
Qed.

Lemma shuffle_with_unique_choices a p :
  NoDup a → p ≡ₚ a →
  ∃ js, choices_ok (length a - 1) js ∧ shuffle_with (length a - 1) js a = p
        ∧ ∀ js', choices_ok (length a - 1) js' →
                 shuffle_with (length a - 1) js' a = p → js' = js.
Proof.
  intros Hnd Hp. destruct a as [|x a].
  - apply Permutation_nil_r in Hp as ->. exists []. split_and!; [done..|].
    intros js' Hok _. by apply choices_ok_0.
  - replace (length (x :: a) - 1) with (length a) by (simpl; lia).
    by apply shuffle_with_bijective.
Qed.

(** The loop on the store does to the array what [shuffle_with] does to
    its contents, and touches nothing else. *)
Lemma shuffle_loop_spec rnd i (h : heap) a k tl :
  shuffle_loop rnd i (length h) (World (h ++ a :: tl) k)
  = World (h ++ shuffle_with i (picks rnd i k) a :: tl) (k + i).
Proof.
  revert a k. induction i as [|i IH]; intros a k.
  - simpl. by rewrite Nat.add_0_r.
  - cbn [shuffle_loop picks shuffle_with w_heap w_calls].
    rewrite hread_app_here, !hwrite_app_here. fold (swap a (S i) (pick rnd k (S i))).
    rewrite IH. f_equal. lia.
Qed.

Lemma shuffleInPlace_spec rnd (h tl : heap) a k :
  shuffleInPlace rnd (length h) (World (h ++ a :: tl) k)
  = (length h,
     World (h ++ shuffle_with (length a - 1) (picks rnd (length a - 1) k) a :: tl)
           (k + (length a - 1))).
Proof.
  unfold shuffleInPlace. cbn [w_heap]. rewrite hread_app_here.
  by rewrite shuffle_loop_spec.
Qed.

Lemma shuffled_Permutation rnd known k : shuffled rnd known k ≡ₚ makeDeck known.
Proof.
  unfold shuffled. destruct (makeDeck known) as [|c l] eqn:Hd; [done|].
  apply shuffle_with_Permutation; [simpl; lia | apply picks_ok].
Qed.

(** C9.  [shuffleInPlace] works in place on the array it is given and
    returns it.  It is an exchange shuffle: the loop runs from the last
    index down to index 1 and at each pass exchanges the current element
    with the one at an index picked in [0..current]; the index picked is
    [j] exactly when the random number falls in the [j]-th of the
    [current + 1] equal parts of the unit interval.  The result is a
    permutation of the input, and for an array without duplicates every
    permutation is produced by exactly one sequence of picks, so that a
    uniform source makes all permutations equally likely. *)
Theorem shuffleInPlace_exchange_shuffle rnd (h tl : heap) (a : list val) (k : nat) :
  let n := length a - 1 in
  let js := picks rnd n k in
  shuffleInPlace rnd (length h) (World (h ++ a :: tl) k)
    = (length h, World (h ++ shuffle_with n js a :: tl) (k + n))
  ∧ (∀ i j js' b, shuffle_with (S i) (j :: js') b = shuffle_with i js' (swap b (S i) j))
  ∧ (∀ i k', picks rnd (S i) k' = pick rnd k' (S i) :: picks rnd i (S k'))
  ∧ choices_ok n js
  ∧ (∀ i k' j,
       pick rnd k' i = j
       ↔ (inject_Z (Z.of_nat j) <= draw rnd k' * inject_Z (Z.of_nat (i + 1)))%Q
         ∧ (draw rnd k' * inject_Z (Z.of_nat (i + 1)) < inject_Z (Z.of_nat j + 1))%Q)
  ∧ shuffle_with n js a ≡ₚ a
  ∧ (NoDup a → ∀ p, p ≡ₚ a →
       ∃ js0, choices_ok n js0 ∧ shuffle_with n js0 a = p
              ∧ ∀ js', choices_ok n js' → shuffle_with n js' a = p → js' = js0).
Proof.
  intros n js. split_and!.
  - apply shuffleInPlace_spec.
  - done.
  - done.
  - apply picks_ok.
  - intros i k' j. apply pick_interval.
  - destruct a as [|x a]; [done|].
    apply shuffle_with_Permutation; [unfold n; simpl; lia | apply picks_ok].
  - intros Hnd p Hp. by apply shuffle_with_unique_choices.
Qed.

Example shuffle_sample :
  (shuffleInPlace sample_source 0
     (World [[Some "2s"; Some "2h"; Some "2d"; Some "2c"; Some "3s"]] 0)).2
  = World [[Some "2h"; Some "2d"; Some "2c"; Some "3s"; Some "2s"]] 4.
Proof. by vm_compute. Qed.

(** ** One trial *)

Lemma fill_fold_spec (ixs : list nat) (h1 : heap) dl d b idx :
  dl < length h1 → hread h1 dl = d →
  foldl (fill_step dl (length h1)) (idx, h1 ++ [b]) ixs
  = (let '(idx', b') := foldl (fill_step_list d) (idx, b) ixs in (idx', h1 ++ [b'])).
Proof.
  intros Hdl Hd. revert idx b.
  induction ixs as [|i ixs IH]; intros idx b; [done|].
  cbn [foldl]. unfold fill_step at 2, fill_step_list at 2.
  rewrite hread_app_here, hread_app_l, hwrite_app_here, Hd by done.
  destruct (truthy (aget b i)); apply IH.
Qed.

Lemma trial_heap rnd solve known req (w : world) :
  let d := shuffled rnd known (w_calls w) in
  let h1 := w_heap w ++ [d] in
  (trial rnd solve known req w).2
  = World (h1 ++ [(fill_list d 0 (hread h1 (board req))).2])
          (w_calls w + (length (makeDeck known) - 1)).
Proof.
  destruct w as [h k]. cbn [w_heap w_calls]. cbv zeta.
  unfold trial. cbn [halloc w_heap w_calls].
  rewrite (shuffleInPlace_spec rnd h []). cbn [w_heap w_calls]. fold (shuffled rnd known k).
  set (d := shuffled rnd known k). set (h1 := h ++ [d]).
  assert (length h < length h1) as Hlt by (unfold h1; rewrite length_app; simpl; lia).
  assert (hread h1 (length h) = d) as Hd by (unfold h1; apply hread_app_here).
  unfold fill_board. rewrite (fill_fold_spec _ h1 (length h) d) by done.
  fold (fill_list d 0 (hread h1 (board req))).
  destruct (fill_list d 0 (hread h1 (board req))) as [idx b].
  destruct (deal _ _ idx) as [opps idx']. done.
Qed.

Lemma trial_spec rnd solve known req (h : heap) k :
  hero req < length h → board req < length h →
  (trial rnd solve known req (World h k)).1
  = trial_of rnd solve known (hread h (hero req)) (hread h (board req))
      (Z.to_nat (players req - 1)) k.
Proof.
  intros Hh Hb. unfold trial, trial_of. cbn [halloc w_heap w_calls].
  rewrite (shuffleInPlace_spec rnd h []). cbn [w_heap w_calls]. fold (shuffled rnd known k).
  set (d := shuffled rnd known k). set (h1 := h ++ [d]).
  assert (length h < length h1) as Hlt by (unfold h1; rewrite length_app; simpl; lia).
  assert (hread h1 (length h) = d) as Hd by (unfold h1; apply hread_app_here).
  unfold fill_board. rewrite (fill_fold_spec _ h1 (length h) d) by done.
  assert (hread h1 (board req) = hread h (board req)) as -> by (by apply hread_app_l).
  fold (fill_list d 0 (hread h (board req))).
  destruct (fill_list d 0 (hread h (board req))) as [idx b].
  rewrite hread_app_l, Hd by done.
  destruct (deal _ d idx) as [opps idx']. cbn [fst].
  rewrite hread_app_here.
  rewrite hread_app_l by lia. unfold h1. rewrite hread_app_l by done. done.
Qed.

Lemma trial_of_outcome rnd solve known hc bc n k :
  let t := trial_of rnd solve known hc bc n k in
  t_outcome t = classify solve hc (t_simBoard t) (t_opponents t).
Proof.
  unfold trial_of. destruct (fill_list _ _ _) as [idx b].
  by destruct (deal _ _ _) as [opps idx'].
Qed.

(** Filling the board: the slots before the current one are settled, the
    cursor has advanced once per slot filled, and the slots from the
    current one on hold the cards that were there plus the cards drawn. *)
Lemma fill_step_list_inv d idx b i :
  i ≤ length b →
  ∃ idx1 b1 v,
    fill_step_list d (idx, b) i = (idx1, b1)
    ∧ b1 !! i = Some v ∧ take i b1 = take i b ∧ drop (S i) b1 = drop (S i) b
    ∧ length b1 = length b `max` S i
    ∧ ((idx1 = idx ∧ filterBoolean (drop i b) = v :: filterBoolean (drop (S i) b))
       ∨ (idx1 = S idx ∧ v = aget d idx
          ∧ filterBoolean (drop i b) = filterBoolean (drop (S i) b))).
Proof.
  intros Hi. unfold fill_step_list.
  destruct (b !! i) as [x|] eqn:Hx.
  - pose proof (lookup_lt_Some _ _ _ Hx) as Hlt.
    rewrite (aget_lookup _ _ _ Hx). rewrite (drop_S _ _ _ Hx).
    destruct (truthy x) eqn:Htr.
    + exists idx, b, x. split_and!; try done; [lia|].
      left. by rewrite filterBoolean_cons_true.
    + exists (S idx), (<[i:=aget d idx]> b), (aget d idx).
      rewrite aset_lt by done. split_and!; try done.
      * by apply list_lookup_insert_eq.
      * by rewrite take_insert_ge.
      * rewrite drop_insert_lt by lia. done.
      * rewrite length_insert. lia.
      * right. by rewrite filterBoolean_cons_false.
  - pose proof (lookup_ge_None_1 _ _ Hx) as Hge.
    assert (i = length b) as -> by lia.
    unfold aget at 1. rewrite Hx. cbn [default truthy undefined].
    exists (S idx), (b ++ [aget d idx]), (aget d idx).
    unfold aset. rewrite decide_False by lia. rewrite Nat.sub_diag. cbn [replicate app].
    split_and!; try done.
    + by rewrite list_lookup_middle.
    + by rewrite take_app_length, take_ge.
    + rewrite !drop_ge; [done|lia|rewrite length_app; simpl; lia].
    + rewrite length_app. simpl. lia.
    + right. by rewrite !drop_ge by lia.
Qed.

Lemma fill_fold_inv d n :
  ∀ i idx b, i ≤ length b → length b ≤ i + n →
    let '(idx', b') := foldl (fill_step_list d) (idx, b) (seq i n) in
    length b' = i + n ∧ take i b' = take i b ∧ idx ≤ idx'
    ∧ idx' + length (filterBoolean (drop i b)) = idx + n
    ∧ drop i b' ≡ₚ filterBoolean (drop i b) ++ (aget d <$> seq idx (idx' - idx)).
Proof.
  induction n as [|n IH]; intros i idx b Hi Hlen.
  - cbn [seq foldl]. rewrite Nat.sub_diag. cbn [seq fmap list_fmap].
    rewrite drop_ge by lia. split_and!; try done; lia.
  - cbn [seq foldl].
    destruct (fill_step_list_inv d idx b i Hi)
      as (idx1 & b1 & v & -> & Hv & Htk & Hdr & Hl1 & Hcase).
    specialize (IH (S i) idx1 b1).
    destruct (foldl _ (idx1, b1) (seq (S i) n)) as [idx' b'].
    destruct IH as (Hlen' & Htk' & Hidx & Hcnt & Hperm); [lia..|].
    assert (b' !! i = Some v) as Hv'.
    { rewrite <-(lookup_take_lt b' (S i)) by lia. rewrite Htk'.
      by rewrite lookup_take_lt by lia. }
    assert (take i b' = take i b) as Htk''.
    { transitivity (take i (take (S i) b')); [rewrite take_take; f_equal; lia|].
      rewrite Htk', take_take, <-Htk. f_equal. lia. }
    rewrite (drop_S _ _ _ Hv'). rewrite Hdr in Hperm, Hcnt.
    destruct Hcase as [(-> & Hf)|(-> & -> & Hf)]; rewrite Hf.
    + split_and!; try done; [lia | simpl; lia |]. simpl. by rewrite Hperm.
    + split_and!; try done; [lia | lia | lia |].
      replace (idx' - idx) with (S (idx' - S idx)) by lia. cbn [seq fmap list_fmap].
      rewrite Hperm. by rewrite <-Permutation_middle.
Qed.

Lemma fill_list_spec d b0 :
  length b0 ≤ 5 →
  let '(idx, b) := fill_list d 0 b0 in
  length b = 5 ∧ idx + length (filterBoolean b0) = 5
  ∧ b ≡ₚ filterBoolean b0 ++ (aget d <$> seq 0 idx).
Proof.
  intros Hlen. unfold fill_list.
  pose proof (fill_fold_inv d 5 0 0 b0) as H.
  destruct (foldl _ _ _) as [idx b].
  destruct H as (Hl & _ & _ & Hcnt & Hperm); [lia..|].
  rewrite !drop_0 in *. rewrite Nat.sub_0_r in Hperm. split_and!; [done|lia|done].
Qed.

Lemma deal_spec n d idx :
  let '(opps, idx') := deal n d idx in
  idx' = idx + 2 * n ∧ length opps = n ∧ Forall (λ o, length o = 2) opps
  ∧ concat opps = aget d <$> seq idx (2 * n).
Proof.
  revert idx. induction n as [|n IH]; intros idx; simpl.
  - split_and!; (done || lia).
  - specialize (IH (S (S idx))). destruct (deal n d (S (S idx))) as [rest idx'].
    destruct IH as (-> & Hl & Hall & Hc). split_and!; [lia|simpl; lia|by constructor|].
    simpl. rewrite Hc. replace (n + S (n + 0)) with (S (2 * n)) by lia. done.
Qed.

Lemma unknown_count b n i :
  length b ≤ i + n →
  length (filter (λ j, ¬ truthy (aget b j)) (seq i n)) + length (filterBoolean (drop i b)) = n.
Proof.
  revert i. induction n as [|n IH]; intros i Hlen.
  - simpl. rewrite drop_ge by lia. done.
  - cbn [seq]. specialize (IH (S i) ltac:(lia)).
    destruct (b !! i) as [x|] eqn:Hx.
    + rewrite (drop_S _ _ _ Hx). destruct (truthy x) eqn:Htr.
      * rewrite filter_cons_False by (rewrite (aget_lookup _ _ _ Hx), Htr; simpl; tauto).
        rewrite filterBoolean_cons_true by done. cbn [length]. lia.
      * rewrite filter_cons_True by (rewrite (aget_lookup _ _ _ Hx); by apply Is_true_false).
        rewrite filterBoolean_cons_false by done. cbn [length]. lia.
    + pose proof (lookup_ge_None_1 _ _ Hx).
      rewrite filter_cons_True by (unfold aget; rewrite Hx; simpl; tauto).
      rewrite drop_ge by lia. rewrite drop_ge in IH by lia.
      cbn [length]. unfold filterBoolean in *. rewrite filter_nil in *. cbn [length] in *. lia.
Qed.

Lemma unknown_slots_known b :
  length b ≤ 5 → unknown_slots b + length (filterBoolean b) = 5.
Proof. intros H. pose proof (unknown_count b 5 0 H) as Hc. by rewrite drop_0 in Hc. Qed.

Lemma selected_split (hc bc : list val) :
  length hc = 2 → truthy (aget hc 0) → truthy (aget hc 1) →
  filterBoolean (hc ++ bc) = hc ++ filterBoolean bc.
Proof.
  intros Hhc Hh0 Hh1. unfold filterBoolean. rewrite filter_app. f_equal.
  destruct hc as [|a [|b [|??]]]; simplify_eq/=.
  unfold aget in Hh0, Hh1. simpl in *.
  rewrite filter_cons_True by done. rewrite filter_cons_True by done. done.
Qed.

Lemma known_size (hc bc : list val) :
  NoDup (filterBoolean (hc ++ bc)) →
  length hc = 2 → truthy (aget hc 0) → truthy (aget hc 1) →
  size (list_to_set (C:=gset val) (filterBoolean (hc ++ bc)))
  = 2 + length (filterBoolean bc).
Proof.
  intros Hnd Hhc Hh0 Hh1. rewrite size_list_to_set by done.
  rewrite selected_split, length_app by done. lia.
Qed.

(** A trial of a request that passed the guards, with two hole cards and
    at most five board slots. *)
Section Validated.
Variable rnd : RandomSource.
Variable solve : list val → Z.
Variables hc bc : list val.
Variable n k : nat.
Hypothesis Hnd : NoDup (filterBoolean (hc ++ bc)).
Hypothesis Hhc : length hc = 2.
Hypothesis Hh0 : truthy (aget hc 0).
Hypothesis Hh1 : truthy (aget hc 1).
Hypothesis Hbc : length bc ≤ 5.
Hypothesis Hn : n ≤ 9.

Let known : gset val := list_to_set (filterBoolean (hc ++ bc)).
Let t := trial_of rnd solve known hc bc n k.

Lemma trial_of_sound :
  t_deck t ≡ₚ makeDeck known
  ∧ length (t_simBoard t) = 5
  ∧ length (t_opponents t) = n ∧ Forall (λ o, length o = 2) (t_opponents t)
  ∧ t_idx t = 2 * n + unknown_slots bc
  ∧ t_idx t ≤ 52 - size known
  ∧ 52 - size known ≤ length (t_deck t)
  ∧ t_simBoard t ++ concat (t_opponents t) ≡ₚ filterBoolean bc ++ dealt t
  ∧ NoDup (hc ++ t_simBoard t ++ concat (t_opponents t))
  ∧ (∀ c, c ∈ dealt t → c ∈ ALL_CARDS ∧ c ∉ known).
Proof.
  pose proof (shuffled_Permutation rnd known k) as Hperm.
  pose proof (makeDeck_length_ge known) as Hdl.
  pose proof (known_size hc bc Hnd Hhc Hh0 Hh1) as Hks. fold known in Hks.
  pose proof (unknown_slots_known bc Hbc) as Hun.
  unfold dealt, t, trial_of.
  set (d := shuffled rnd known k) in *.
  pose proof (fill_list_spec d bc Hbc) as Hfill.
  destruct (fill_list d 0 bc) as [idx b].
  destruct Hfill as (Hbl & Hidx & Hb).
  pose proof (deal_spec n d idx) as Hdeal.
  destruct (deal n d idx) as [opps idx'].
  destruct Hdeal as (-> & Hol & Hall & Hcat).
  cbn [t_deck t_simBoard t_opponents t_idx t_outcome].
  assert (length d = length (makeDeck known)) as Hlen by (by rewrite Hperm).
  assert (idx + 2 * n ≤ length d) as Hin by lia.
  assert (b ++ concat opps ≡ₚ filterBoolean bc ++ take (idx + 2 * n) d) as Hcards.
  { rewrite Hb, Hcat, <-(assoc_L (++)), <-fmap_app.
    change idx with (0 + idx) at 2. rewrite <-seq_app.
    by rewrite aget_seq_take. }
  assert (∀ c, c ∈ take (idx + 2 * n) d → c ∈ ALL_CARDS ∧ c ∉ known) as Hdealt.
  { intros c Hc. apply makeDeck_elem. rewrite <-Hperm.
    by apply (subseteq_take (idx + 2 * n)). }
  split_and!; try done; try lia.
  rewrite Hcards, (assoc_L (++)), <-selected_split by done.
  apply NoDup_app. split_and!.
  - done.
  - intros c Hc Hc'. apply Hdealt in Hc' as [_ Hc']. apply Hc'.
    unfold known. by apply elem_of_list_to_set.
  - apply (sublist_NoDup _ d); [|apply sublist_take]. rewrite Hperm. apply NoDup_makeDeck.
Qed.
End Validated.

(** ** Classifying the outcome *)

Lemma max_rank_ge hr ors :
  (hr <= max_rank hr ors)%Z ∧ Forall (λ r, (r <= max_rank hr ors)%Z) ors.
Proof.
  induction ors as [|r ors [IH1 IH2]]; simpl.
  - split; [lia|constructor].
  - split; [lia|]. constructor; [lia|]. eapply Forall_impl; [exact IH2|]. simpl. lia.
Qed.

Lemma max_rank_hero hr ors : hr = max_rank hr ors ↔ Forall (λ r, (r <= hr)%Z) ors.
Proof.
  split.
  - intros H. pose proof (max_rank_ge hr ors) as [_ HF]. by rewrite <-H in HF.
  - induction 1 as [|r ors Hr _ IH]; simpl; [done|]. lia.
Qed.

Lemma winners_outcome (hr : Z) (os : list Hand) :
  Forall (λ h, hand_id h ≠ 0) os →
  let ws := winners ((0, hr) :: os) in
  let o := if decide (length ws = 1) then
             if decide (hand_id <$> ws !! 0 = Some 0) then Win else Loss
           else if decide (0 ∈ hand_id <$> ws) then Tie else Loss in
  (o = Win ↔ Forall (λ h, (hand_rank h < hr)%Z) os)
  ∧ (o = Tie ↔ Forall (λ h, (hand_rank h <= hr)%Z) os
               ∧ Exists (λ h, hand_rank h = hr) os).
Proof.
  intros Hid. unfold winners.
  set (P := λ h : Hand,
              Forall (λ h' : Hand, (hand_rank h' <= hand_rank h)%Z) ((0, hr) :: os)).
  assert (P (0, hr) ↔ Forall (λ h, (hand_rank h <= hr)%Z) os) as HP0.
  { unfold P. rewrite Forall_cons. unfold hand_rank at 1 2. simpl.
    split; [tauto|]. split; [lia|done]. }
  assert (∀ h, Forall (λ h, (hand_rank h <= hr)%Z) os →
               (P h ↔ (hr <= hand_rank h)%Z)) as HPo.
  { intros h HM. unfold P. rewrite Forall_cons. unfold hand_rank at 1. simpl.
    split; [tauto|]. intros Hh. split; [done|].
    eapply Forall_impl; [exact HM|]. simpl. lia. }
  assert (Forall (λ h, hand_id h ≠ 0) (filter P os)) as Hidf.
  { apply Forall_forall. intros h [_ Hh]%list_elem_of_filter.
    by apply (Forall_elem _ _ _ Hid). }
  rewrite (filter_cons P (0, hr) os).
  destruct (decide (P (0, hr))) as [HM|HM].
  - apply HP0 in HM as HM'.
    assert (filter P os = [] ↔ Forall (λ h, (hand_rank h < hr)%Z) os) as Hnil.
    { split.
      - intros Hf. apply Forall_forall. intros h Hh.
        destruct (decide (hand_rank h < hr)%Z) as [|Hge]; [done|].
        exfalso. apply (filter_nil_not_elem_of P os h Hf); [|done].
        apply HPo; [done|lia].
      - intros Hlt. destruct (filter P os) as [|h l] eqn:Hf; [done|].
        assert (h ∈ filter P os) as [Hh Hin]%list_elem_of_filter
          by (rewrite Hf; left).
        apply HPo in Hh; [|done].
        apply (λ H, Forall_elem _ _ h H Hin) in Hlt. simpl in Hlt. lia. }
    cbn [length]. destruct (decide (S (length (filter P os)) = 1)) as [Hone|Hmany].
    + assert (filter P os = []) as Hf by (apply nil_length_inv; lia).
      rewrite Hf. cbn. rewrite decide_True by done. split.
      * split; [intros _; by apply Hnil|done].
      * split; [done|]. intros [_ Hex]. apply Hnil in Hf.
        apply Exists_exists in Hex as (h & Hin & Heq).
        apply (λ H, Forall_elem _ _ h H Hin) in Hf. simpl in Hf. lia.
    + rewrite decide_True by (cbn; left). split.
      * split; [done|]. intros Hlt%Hnil. rewrite Hlt in Hmany. done.
      * split; [|done]. intros _. split; [done|].
        destruct (filter P os) as [|h l] eqn:Hf; [done|].
        assert (h ∈ filter P os) as [Hh Hin]%list_elem_of_filter
          by (rewrite Hf; left).
        apply HPo in Hh; [|done]. apply Exists_exists. exists h. split; [done|].
        apply (λ H, Forall_elem _ _ h H Hin) in HM'. simpl in HM'. lia.
  - assert (¬ Forall (λ h, (hand_rank h <= hr)%Z) os) as HM' by (by rewrite <-HP0).
    assert ((if decide (length (filter P os) = 1) then
               if decide (hand_id <$> filter P os !! 0 = Some 0) then Win else Loss
             else if decide (0 ∈ hand_id <$> filter P os) then Tie else Loss) = Loss) as ->.
    { destruct (decide (length (filter P os) = 1)).
      - rewrite decide_False; [done|].
        destruct (filter P os) as [|h l]; [done|]. cbn.
        apply Forall_cons in Hidf as [Hh _]. congruence.
      - rewrite decide_False; [done|].
        intros (h & Hh0 & Hin)%list_elem_of_fmap.
        apply (λ H, Forall_elem _ _ h H Hin) in Hidf. congruence. }
    split.
    + split; [done|]. intros Hlt. exfalso. apply HM'.
      eapply Forall_impl; [exact Hlt|]. simpl. lia.
    + split; [done|]. intros [? _]. done.
Qed.

Lemma classify_spec solve hc b opps :
  let heroRank := solve (hc ++ b) in
  let oppRanks := (λ o, solve (o ++ b)) <$> opps in
  let o := classify solve hc b opps in
  let win_cond := Forall (λ r, (r < heroRank)%Z) oppRanks in
  let tie_cond := heroRank = max_rank heroRank oppRanks
                  ∧ max_rank heroRank oppRanks ∈ oppRanks in
  (o = Win ↔ win_cond) ∧ (o = Tie ↔ tie_cond)
  ∧ (o = Loss ↔ ¬ win_cond ∧ ¬ tie_cond).
Proof.
  intros hr ors o win_cond tie_cond.
  set (os := imap (λ p h, (S p, solve (h ++ b))) opps : list Hand).
  assert (Forall (λ h, hand_id h ≠ 0) os) as Hid.
  { apply Forall_forall. intros h (p & x & -> & _)%elem_of_lookup_imap. done. }
  assert (hand_rank <$> os = ors) as Hranks.
  { unfold os, ors. rewrite fmap_imap. apply (imap_const (λ o, solve (o ++ b))). }
  pose proof (winners_outcome hr os Hid) as [Hwin Htie]. fold os in Hwin, Htie.
  change (classify solve hc b opps = Win
          ↔ Forall (λ h, (hand_rank h < hr)%Z) os) in Hwin.
  change (classify solve hc b opps = Tie
          ↔ Forall (λ h, (hand_rank h <= hr)%Z) os
            ∧ Exists (λ h, hand_rank h = hr) os) in Htie.
  fold o in Hwin, Htie.
  assert (win_cond ↔ Forall (λ h, (hand_rank h < hr)%Z) os) as Hw.
  { unfold win_cond. rewrite <-Hranks. apply Forall_fmap. }
  assert (tie_cond ↔ Forall (λ h, (hand_rank h <= hr)%Z) os
                     ∧ Exists (λ h, hand_rank h = hr) os) as Ht.
  { unfold tie_cond. rewrite max_rank_hero, <-Hranks.
    pose proof (Forall_fmap hand_rank (λ r, (r <= hr)%Z) os) as Hff.
    split.
    - intros [HM Hin]. apply max_rank_hero in HM as Hmax. rewrite <-Hmax in Hin.
      split; [by apply Hff|].
      apply list_elem_of_fmap in Hin as (h & Hh & Hin).
      apply Exists_exists. by exists h.
    - intros [HM (h & Hin & Hh)%Exists_exists].
      apply Hff in HM. split; [done|].
      apply max_rank_hero in HM as Hmax. rewrite <-Hmax.
      apply list_elem_of_fmap. by exists h. }
  split_and!.
  - by rewrite Hw.
  - by rewrite Ht.
  - rewrite Hw, Ht, <-Hwin, <-Htie. destruct o; split; try done; intros [??]; done.
Qed.

(** ** The trial loop *)

Lemma bump_total o c : tally_total (bump o c) = (tally_total c + 1)%Z.
Proof. destruct o; unfold tally_total; simpl; lia. Qed.

Lemma count_outcome_snoc o log t :
  count_outcome o (log ++ [t])
  = (count_outcome o log + if decide (t_outcome t = o) then 1 else 0)%Z.
Proof.
  unfold count_outcome. rewrite filter_app, length_app, filter_cons, filter_nil.
  destruct (decide (t_outcome t = o)); simpl; lia.
Qed.

Lemma count_outcome_nonneg o log : (0 <= count_outcome o log)%Z.
Proof. unfold count_outcome. lia. Qed.

Lemma bump_matches c log t :
  tally_matches c log → tally_matches (bump (t_outcome t) c) (log ++ [t]).
Proof.
  intros (Hw & Ht & Hl). unfold tally_matches. rewrite !count_outcome_snoc.
  destruct (t_outcome t); simpl; repeat case_decide; try done; lia.
Qed.

Lemma trials_counts rnd solve n known req c log w :
  let '(c', log', _) := trials rnd solve n known req c log w in
  length log' = length log + n
  ∧ tally_total c' = (tally_total c + Z.of_nat n)%Z
  ∧ (tally_matches c log → tally_matches c' log').
Proof.
  revert c log w. induction n as [|n IH]; intros c log w; simpl.
  - split_and!; [lia | lia | done].
  - destruct (trial rnd solve known req w) as [t w1].
    specialize (IH (bump (t_outcome t) c) (log ++ [t]) w1).
    destruct (trials rnd solve n known req _ _ w1) as [[c' log'] w'].
    destruct IH as (Hlen & Htot & Hm). rewrite length_app in Hlen. simpl in Hlen.
    rewrite bump_total in Htot. split_and!; [lia | lia |].
    intros H. by apply Hm, bump_matches.
Qed.

Lemma trials_heap rnd solve n known req c log w :
  ∃ ext, w_heap (trials rnd solve n known req c log w).2 = w_heap w ++ ext.
Proof.
  revert c log w. induction n as [|n IH]; intros c log w; simpl.
  - exists []. by rewrite app_nil_r.
  - pose proof (trial_heap rnd solve known req w) as Hh. cbv zeta in Hh.
    destruct (trial rnd solve known req w) as [t w1]. simpl in Hh. subst w1.
    destruct (IH (bump (t_outcome t) c) (log ++ [t])
                (World ((w_heap w ++ [shuffled rnd known (w_calls w)]) ++
                   [(fill_list (shuffled rnd known (w_calls w)) 0
                       (hread (w_heap w ++ [shuffled rnd known (w_calls w)]) (board req))).2])
                   (w_calls w + (length (makeDeck known) - 1)))) as [ext Hext].
    rewrite Hext. cbn [w_heap]. rewrite <-!(assoc_L (++)). eauto.
Qed.

Lemma trials_trace rnd solve n known req c log w :
  hero req < length (w_heap w) → board req < length (w_heap w) →
  ∀ t, t ∈ (trials rnd solve n known req c log w).1.2 →
    t ∈ log ∨ ∃ k, t = trial_of rnd solve known (hread (w_heap w) (hero req))
                       (hread (w_heap w) (board req)) (Z.to_nat (players req - 1)) k.
Proof.
  revert c log w. induction n as [|n IH]; intros c log w Hh Hb t; simpl.
  - auto.
  - pose proof (trial_heap rnd solve known req w) as Hheap. cbv zeta in Hheap.
    pose proof (trial_spec rnd solve known req (w_heap w) (w_calls w) Hh Hb) as Hspec.
    destruct w as [h k]. cbn [w_heap w_calls] in *.
    destruct (trial rnd solve known req (World h k)) as [t0 w1]. simpl in Hheap, Hspec.
    intros Ht. apply IH in Ht.
    + destruct Ht as [Ht|[k' Ht]].
      * apply elem_of_app in Ht as [Ht|Ht]; [by left|].
        apply list_elem_of_singleton in Ht as ->. right. eauto.
      * right. exists k'. rewrite Ht. subst w1. cbn [w_heap].
        rewrite <-!(assoc_L (++)). by rewrite !hread_app_l.
    + subst w1. cbn [w_heap]. rewrite !length_app. lia.
    + subst w1. cbn [w_heap]. rewrite !length_app. lia.
Qed.

Lemma trials_trace_exact rnd solve n known req c log w :
  hero req < length (w_heap w) → board req < length (w_heap w) →
  (trials rnd solve n known req c log w).1.2
  = log ++ ((λ t, trial_of rnd solve known (hread (w_heap w) (hero req))
                    (hread (w_heap w) (board req)) (Z.to_nat (players req - 1))
                    (w_calls w + t * (length (makeDeck known) - 1)))
            <$> seq 0 n).
Proof.
  revert c log w. induction n as [|n IH]; intros c log w Hh Hb.
  - simpl. by rewrite app_nil_r.
  - pose proof (trial_heap rnd solve known req w) as Hheap. cbv zeta in Hheap.
    pose proof (trial_spec rnd solve known req (w_heap w) (w_calls w) Hh Hb) as Hspec.
    destruct w as [h k]. cbn [w_heap w_calls] in *.
    cbn [trials seq fmap list_fmap].
    destruct (trial rnd solve known req (World h k)) as [t0 w1]. simpl in Hheap, Hspec.
    subst w1 t0. rewrite IH; cbn [w_heap w_calls].
    + rewrite <-!(assoc_L (++)). rewrite !hread_app_l by done.
      f_equal. cbn [app]. rewrite Nat.mul_0_l, Nat.add_0_r. f_equal.
      rewrite <-fmap_S_seq, <-list_fmap_compose.
      apply list_fmap_ext. intros _ t _. simpl. f_equal. lia.
    + rewrite !length_app. lia.
    + rewrite !length_app. lia.
Qed.

(** ** [simulateEquity] *)

Lemma valid_or_rejected req h : valid_request req h ↔ ¬ rejected req h.
Proof.
  unfold valid_request, rejected. split.
  - intros (Hnd & Hp & H0 & H1) [?|[[?|?]|?]]; try done; lia.
  - intros Hr. split_and!.
    + destruct (decide (NoDup (selected req h))); tauto.
    + destruct (decide (players req < 2)%Z); [tauto|lia].
    + destruct (decide (players req > 10)%Z); [tauto|lia].
    + destruct (truthy (aget (hread h (hero req)) 0)); simpl in *; tauto.
    + destruct (truthy (aget (hread h (hero req)) 1)); simpl in *; tauto.
Qed.

Lemma simulateEquity_valid rnd solve req w :
  valid_request req (w_heap w) →
  simulateEquity rnd solve req w =
    let '(c, log, w') :=
      trials rnd solve (passes (iterations req)) (known_of req (w_heap w)) req
        zero_tally [] w in
    {| completion :=
         Returned {| win := jsdiv (wins c) (iterations req);
                     tie := jsdiv (ties c) (iterations req);
                     loss := jsdiv (losses c) (iterations req);
                     equity := jsadd (jsdiv (wins c) (iterations req))
                                 (jshalf (jsdiv (ties c) (iterations req)));
                     res_iterations := iterations req |};
       tally := c; trace := log; final := w' |}.
Proof.
  intros (Hnd & Hp & H0 & H1). unfold simulateEquity.
  rewrite decide_False; [|unfold known_of; rewrite size_list_to_set by done; tauto].
  rewrite decide_False by lia.
  destruct (truthy (aget (hread (w_heap w) (hero req)) 0)); [|done].
  destruct (truthy (aget (hread (w_heap w) (hero req)) 1)); [|done].
  done.
Qed.

Lemma simulateEquity_rejected rnd solve req w :
  rejected req (w_heap w) →
  ∃ msg, simulateEquity rnd solve req w
         = {| completion := Threw msg; tally := zero_tally; trace := []; final := w |}
         ∧ msg ∈ [duplicate_message; players_message; hero_message].
Proof.
  intros Hr. unfold simulateEquity.
  case_decide as Hd; [eexists; split; [done|by repeat constructor]|].
  case_decide as Hp; [eexists; split; [done|by repeat constructor]|].
  destruct (truthy (aget (hread (w_heap w) (hero req)) 0)) eqn:H0;
    [|eexists; split; [done|by repeat constructor]].
  destruct (truthy (aget (hread (w_heap w) (hero req)) 1)) eqn:H1;
    [|eexists; split; [done|by repeat constructor]].
  exfalso. destruct Hr as [Hr|[[Hr|Hr]|Hr]].
  - tauto.
  - by apply Hr, Is_true_true.
  - by apply Hr, Is_true_true.
  - apply Hr, size_list_to_set_NoDup. unfold known_of in Hd.
    destruct (decide (size (list_to_set (C:=gset val) (selected req (w_heap w)))
                      = length (selected req (w_heap w)))); tauto.
Qed.

Lemma trace_rejected rnd solve req w :
  rejected req (w_heap w) → trace (simulateEquity rnd solve req w) = [].
Proof. intros Hr. by destruct (simulateEquity_rejected rnd solve req w Hr) as (? & -> & _). Qed.

Lemma passes_whole (n : Z) (x : Q) :
  (x == inject_Z n)%Q → (0 <= n)%Z → Z.of_nat (passes x) = n ∧ passes x = Z.to_nat n.
Proof.
  intros Hx Hn. unfold passes.
  assert (Qceiling x = n) as ->; [|lia].
  rewrite <-(Qceiling_Z n). by apply Qceiling_comp.
Qed.

Lemma counters_of_passes rnd solve req w :
  valid_request req (w_heap w) →
  let e := simulateEquity rnd solve req w in
  length (trace e) = passes (iterations req)
  ∧ (wins (tally e) + ties (tally e) + losses (tally e))%Z
    = Z.of_nat (passes (iterations req))
  ∧ wins (tally e) = count_outcome Win (trace e)
  ∧ ties (tally e) = count_outcome Tie (trace e)
  ∧ losses (tally e) = count_outcome Loss (trace e).
Proof.
  intros Hv e. unfold e. rewrite simulateEquity_valid by done.
  pose proof (trials_counts rnd solve (passes (iterations req))
                (known_of req (w_heap w)) req zero_tally [] w) as H.
  destruct (trials _ _ _ _ _ _ _ _) as [[c log] w'].
  destruct H as (Hlen & Htot & Hm). cbn [trace tally].
  destruct Hm as (Hw & Ht & Hl); [by repeat split|].
  unfold tally_total in Htot. simpl in Hlen, Htot. split_and!; try done; lia.
Qed.

Lemma counters_after_return rnd solve req w (n : Z) :
  valid_request req (w_heap w) →
  (iterations req == inject_Z n)%Q → (0 <= n)%Z →
  let e := simulateEquity rnd solve req w in
  Z.of_nat (length (trace e)) = n
  ∧ (wins (tally e) + ties (tally e) + losses (tally e))%Z = n
  ∧ wins (tally e) = count_outcome Win (trace e)
  ∧ ties (tally e) = count_outcome Tie (trace e)
  ∧ losses (tally e) = count_outcome Loss (trace e).
Proof.
  intros Hv Hit Hn e.
  destruct (counters_of_passes rnd solve req w Hv) as (Hlen & Hsum & Hrest).
  destruct (passes_whole n _ Hit Hn) as [Hp _]. fold e in Hlen, Hsum, Hrest.
  split_and!; [lia|lia|apply Hrest..].
Qed.

Lemma validation_outcome rnd solve req w :
  let e := simulateEquity rnd solve req w in
  ((∃ msg, completion e = Threw msg) ↔ rejected req (w_heap w))
  ∧ (∀ msg, completion e = Threw msg →
       msg ∈ [duplicate_message; players_message; hero_message]
       ∧ trace e = [] ∧ tally e = zero_tally ∧ final e = w)
  ∧ (¬ NoDup (selected req (w_heap w)) → completion e = Threw duplicate_message).
Proof.
  intros e. unfold e.
  destruct (decide (rejected req (w_heap w))) as [Hr|Hr].
  - destruct (simulateEquity_rejected rnd solve req w Hr) as (msg & Heq & Hmsg).
    split_and!.
    + split; [done|]. intros _. exists msg. by rewrite Heq.
    + intros msg' H. rewrite Heq in *. simpl in H. by simplify_eq.
    + intros Hnd. unfold simulateEquity. rewrite decide_True; [done|].
      unfold known_of. by rewrite size_list_to_set_NoDup.
  - apply valid_or_rejected in Hr as Hv.
    pose proof (simulateEquity_valid rnd solve req w Hv) as Heq.
    destruct (trials _ _ _ _ _ _ _ _) as [[c log] w'].
    rewrite Heq. cbn [completion]. split_and!.
    + split; [by intros [? ?]|done].
    + by intros ??.
    + intros Hnd. by destruct Hv as [? _].
Qed.

Lemma simulateEquity_heap rnd solve req w :
  ∃ ext, w_heap (final (simulateEquity rnd solve req w)) = w_heap w ++ ext.
Proof.
  destruct (decide (rejected req (w_heap w))) as [Hr|Hr].
  - destruct (simulateEquity_rejected rnd solve req w Hr) as (msg & -> & _).
    exists []. by rewrite app_nil_r.
  - apply valid_or_rejected in Hr. rewrite simulateEquity_valid by done.
    pose proof (trials_heap rnd solve (passes (iterations req))
                  (known_of req (w_heap w)) req zero_tally [] w) as H.
    destruct (trials _ _ _ _ _ _ _ _) as [[c log] w']. done.
Qed.

Lemma simulateEquity_trace rnd solve req w :
  valid_request req (w_heap w) →
  hero req < length (w_heap w) → board req < length (w_heap w) →
  trace (simulateEquity rnd solve req w)
  = (λ t, trial_of rnd solve (known_of req (w_heap w))
            (hread (w_heap w) (hero req)) (hread (w_heap w) (board req))
            (Z.to_nat (players req - 1))
            (w_calls w + t * (length (makeDeck (known_of req (w_heap w))) - 1)))
    <$> seq 0 (passes (iterations req)).
Proof.
  intros Hv Hh Hb. rewrite simulateEquity_valid by done.
  pose proof (trials_trace_exact rnd solve (passes (iterations req))
                (known_of req (w_heap w)) req zero_tally [] w Hh Hb) as H.
  destruct (trials _ _ _ _ _ _ _ _) as [[c log] w']. cbn [trace]. by simpl in H.
Qed.

Lemma trace_trial_of rnd solve req w :
  valid_request req (w_heap w) →
  hero req < length (w_heap w) → board req < length (w_heap w) →
  ∀ t, t ∈ trace (simulateEquity rnd solve req w) →
    ∃ k, t = trial_of rnd solve (known_of req (w_heap w))
               (hread (w_heap w) (hero req)) (hread (w_heap w) (board req))
               (Z.to_nat (players req - 1)) k.
Proof.
  intros Hv Hh Hb t. rewrite simulateEquity_valid by done.
  pose proof (trials_trace rnd solve (passes (iterations req))
                (known_of req (w_heap w)) req zero_tally [] w Hh Hb t) as H.
  destruct (trials _ _ _ _ _ _ _ _) as [[c log] w']. cbn [trace]. simpl in H.
  intros Ht. destruct (H Ht) as [Hnil|?]; [|done]. by apply elem_of_nil in Hnil.
Qed.

Lemma trace_sound rnd solve req w :
  valid_request req (w_heap w) →
  well_formed req (w_heap w) →
  ∀ t, t ∈ trace (simulateEquity rnd solve req w) →
    let known := known_of req (w_heap w) in
    let hc := hread (w_heap w) (hero req) in
    let bc := hread (w_heap w) (board req) in
    t_deck t ≡ₚ makeDeck known
    ∧ length (t_simBoard t) = 5
    ∧ length (t_opponents t) = Z.to_nat (players req - 1)
    ∧ Forall (λ o, length o = 2) (t_opponents t)
    ∧ t_idx t = required_cards req (w_heap w)
    ∧ t_idx t ≤ 52 - size known
    ∧ 52 - size known ≤ length (t_deck t)
    ∧ t_simBoard t ++ concat (t_opponents t) ≡ₚ filterBoolean bc ++ dealt t
    ∧ NoDup (hc ++ t_simBoard t ++ concat (t_opponents t))
    ∧ (∀ c, c ∈ dealt t → c ∈ ALL_CARDS ∧ c ∉ known).
Proof.
  intros Hv (Hh & Hb & Hhl & Hbl) t Ht.
  destruct (trace_trial_of rnd solve req w Hv Hh Hb t Ht) as [k ->].
  destruct Hv as (Hnd & Hp & H0 & H1).
  apply trial_of_sound; try done. lia.
Qed.

Lemma sample_valid : valid_request sample_request (w_heap sample_world).
Proof.
  unfold valid_request. split_and!.
  - apply (bool_decide_unpack _). by vm_compute.
  - by vm_compute.
  - by vm_compute.
  - by vm_compute.
  - by vm_compute.
Defined.

Lemma sample_well_formed : well_formed sample_request (w_heap sample_world).
Proof. unfold well_formed. simpl. unfold hread. simpl. lia. Defined.

Example sample_required : required_cards sample_request sample_heap = 6.
Proof. by vm_compute. Qed.

(** C1.  For every request that passes validation and every iteration
    count [n] (a non-negative integer), the simulation performs exactly
    [n] trials and the counters satisfy [wins + ties + losses = n]: each
    counter is the number of trials that ended in its outcome.  The
    trials are independent in that each is the same function of the
    request, applied to its own block of random numbers: trial [t] uses
    the draws that follow those of trial [t - 1], one per exchange of its
    shuffle. *)
Theorem simulateEquity_counts_every_trial rnd solve req w (n : Z) :
  valid_request req (w_heap w) →
  (iterations req == inject_Z n)%Q → (0 <= n)%Z →
  let e := simulateEquity rnd solve req w in
  let known := known_of req (w_heap w) in
  (Z.of_nat (length (trace e)) = n
   ∧ (wins (tally e) + ties (tally e) + losses (tally e))%Z = n
   ∧ wins (tally e) = count_outcome Win (trace e)
   ∧ ties (tally e) = count_outcome Tie (trace e)
   ∧ losses (tally e) = count_outcome Loss (trace e))
  ∧ (hero req < length (w_heap w) → board req < length (w_heap w) →
     trace e
     = (λ t, trial_of rnd solve known
               (hread (w_heap w) (hero req)) (hread (w_heap w) (board req))
               (Z.to_nat (players req - 1))
               (w_calls w + t * (length (makeDeck known) - 1)))
       <$> seq 0 (Z.to_nat n)).
Proof.
  intros Hv Hit Hn e known. split.
  - by apply counters_after_return.
  - intros Hh Hb. destruct (passes_whole n _ Hit Hn) as [_ <-].
    by apply simulateEquity_trace.
Qed.

Lemma simulateEquity_counts_witness :
  let e := simulateEquity sample_source sample_solve sample_request sample_world in
  let known := known_of sample_request sample_heap in
  (Z.of_nat (length (trace e)) = 2%Z
   ∧ (wins (tally e) + ties (tally e) + losses (tally e))%Z = 2%Z
   ∧ wins (tally e) = count_outcome Win (trace e)
   ∧ ties (tally e) = count_outcome Tie (trace e)
   ∧ losses (tally e) = count_outcome Loss (trace e))
  ∧ trace e
    = (λ t, trial_of sample_source sample_solve known
              [Some "As"; Some "Ks"]
              [Some "Qd"; Some "Jd"; Some "Td"; Some blank; Some blank] 2
              (0 + t * (length (makeDeck known) - 1)))
      <$> seq 0 2.
Proof.
  destruct (simulateEquity_counts_every_trial sample_source sample_solve
              sample_request sample_world 2) as [Hcount Htrace].
  - apply sample_valid.
  - reflexivity.
  - lia.
  - split; [exact Hcount|]. apply Htrace; simpl; lia.
Defined.

(** C2.  [simulateEquity] throws exactly when the player count is outside
    [2..10], or a hole card of the hero is missing, or a card occurs twice
    across the [hero] and [board] inputs.  What it throws is one of the
    three validation errors, and then no trial was executed, no counter
    moved, and the world is as it was; a duplicate is reported as such. *)
Theorem simulateEquity_throws_iff_rejected rnd solve req w :
  let e := simulateEquity rnd solve req w in
  ((∃ msg, completion e = Threw msg) ↔ rejected req (w_heap w))
  ∧ (∀ msg, completion e = Threw msg →
       msg ∈ [duplicate_message; players_message; hero_message]
       ∧ trace e = [] ∧ tally e = zero_tally ∧ final e = w)
  ∧ (¬ NoDup (selected req (w_heap w)) → completion e = Threw duplicate_message).
Proof. apply validation_outcome. Qed.

Example duplicate_hero_rejected rnd solve n :
  let e := simulateEquity rnd solve
             {| players := 2; hero := 0; board := 1; iterations := n |} duplicate_world in
  completion e = Threw duplicate_message ∧ trace e = [] ∧ final e = duplicate_world.
Proof. by vm_compute. Qed.

Lemma clampIterations_range iters :
  (1000 <= clampIterations iters)%Q ∧ (clampIterations iters <= 200000)%Q.
Proof.
  unfold clampIterations. split; [apply Q.le_max_l|].
  apply Q.max_lub; [done|apply Q.le_min_l].
Qed.

Lemma clampIterations_cases iters :
  (iters = None → clampIterations iters = 1000%Q)
  ∧ (∀ x, iters = Some x →
       ((x < 1000)%Q → clampIterations iters = 1000%Q)
       ∧ ((x > 200000)%Q → clampIterations iters = 200000%Q)
       ∧ ((1000 <= x)%Q ∧ (x <= 200000)%Q → (clampIterations iters == x)%Q)).
Proof.
  split; [by intros ->|]. intros x ->. unfold clampIterations.
  cbn [default from_option]. unfold id, Qmax, Qmin, GenericMinMax.gmax, GenericMinMax.gmin.
  destruct (Qcompare_spec 200000 x) as [H|H|H];
    [destruct (Qcompare_spec 1000 200000) as [H'|H'|H']
    |destruct (Qcompare_spec 1000 200000) as [H'|H'|H']
    |destruct (Qcompare_spec 1000 x) as [H'|H'|H']];
    split_and!; try done; try (intros; lra); intros; by symmetry.
Qed.

Lemma passes_ceiling (x : Q) : (0 <= x)%Q → Z.of_nat (passes x) = Qceiling x.
Proof.
  intros Hx. unfold passes.
  pose proof (Qceiling_resp_le _ _ Hx) as H. change (Qceiling 0) with 0%Z in H. lia.
Qed.

(** C3.  [run] always passes [simulateEquity] an iteration count within
    [1000..200000]: a value below 1000 (or one that is not a number)
    becomes 1000, a value above 200000 becomes 200000, a value in range is
    kept.  Whether the call is rejected depends on the players and the
    cards alone: a rejected request stays rejected, with the same error,
    whatever the iteration count, and a request that returns ran exactly
    the clamped number of trials (for a count that is not whole, the
    next whole number). *)
Theorem run_clamps_iterations rnd solve s w :
  let n := iterations (run_request s) in
  (1000 <= n <= 200000)%Q
  ∧ (s_iters s = None → n = 1000%Q)
  ∧ (∀ x, s_iters s = Some x →
       ((x < 1000)%Q → n = 1000%Q)
       ∧ ((x > 200000)%Q → n = 200000%Q)
       ∧ ((1000 <= x <= 200000)%Q → (n == x)%Q))
  ∧ ((∃ msg, completion (run rnd solve s w) = Threw msg)
       ↔ rejected (run_request s) (w_heap w))
  ∧ (∀ iters msg,
       completion (run rnd solve s w) = Threw msg →
       completion (run rnd solve (with_iters s iters) w) = Threw msg)
  ∧ (∀ r, completion (run rnd solve s w) = Returned r →
       Z.of_nat (length (trace (run rnd solve s w))) = Qceiling n
       ∧ (∀ z : Z, (n == inject_Z z)%Q →
            Z.of_nat (length (trace (run rnd solve s w))) = z)
       ∧ res_iterations r = n).
Proof.
  intros n. pose proof (clampIterations_range (s_iters s)) as Hn.
  destruct (clampIterations_cases (s_iters s)) as [Hnone Hsome].
  split_and!.
  - apply Hn.
  - apply Hn.
  - apply Hnone.
  - intros x H. destruct (Hsome x H) as (H1 & H2 & H3). split_and!; done.
  - apply validation_outcome.
  - intros iters msg. unfold run, simulateEquity.
    change (known_of (run_request (with_iters s iters)) (w_heap w))
      with (known_of (run_request s) (w_heap w)).
    change (selected (run_request (with_iters s iters)) (w_heap w))
      with (selected (run_request s) (w_heap w)).
    cbn [run_request with_iters players hero board iterations s_players s_hero s_board s_iters].
    repeat case_decide; try done.
    destruct (negb _ || negb _); [done|].
    destruct (trials _ _ (passes (clampIterations (s_iters s))) _ _ _ _ _) as [[??]?].
    done.
  - intros r Hr. unfold run in *.
    destruct (decide (rejected (run_request s) (w_heap w))) as [Hrej|Hrej].
    + destruct (simulateEquity_rejected rnd solve _ w Hrej) as (msg & Heq & _).
      rewrite Heq in Hr. done.
    + apply valid_or_rejected in Hrej.
      destruct (counters_of_passes rnd solve (run_request s) w Hrej) as (Hlen & _).
      assert (0 <= n)%Q as Hn0 by (unfold n; cbn [run_request iterations]; lra).
      split_and!.
      * rewrite Hlen. by apply passes_ceiling.
      * intros z Hz. rewrite Hlen, passes_ceiling by done.
        rewrite <-(Qceiling_Z z). by apply Qceiling_comp.
      * rewrite simulateEquity_valid in Hr by done.
        destruct (trials _ _ _ _ _ _ _ _) as [[??]?]. simpl in Hr. by simplify_eq.
Qed.

(** C4.  In every trial the hero's outcome is a win exactly when the
    hero's strength is strictly greater than that of every opponent; a
    tie exactly when the hero's strength is the maximum over the hero and
    all opponents and some opponent attains that maximum too; and a loss
    exactly when neither holds. *)
Theorem trial_outcome_classified rnd solve req w :
  hero req < length (w_heap w) →
  board req < length (w_heap w) →
  Forall (λ t,
    let heroRank := solve (hread (w_heap w) (hero req) ++ t_simBoard t) in
    let oppRanks := (λ o, solve (o ++ t_simBoard t)) <$> t_opponents t in
    let win_cond := Forall (λ r, (r < heroRank)%Z) oppRanks in
    let tie_cond := heroRank = max_rank heroRank oppRanks
                    ∧ max_rank heroRank oppRanks ∈ oppRanks in
    (t_outcome t = Win ↔ win_cond)
    ∧ (t_outcome t = Tie ↔ tie_cond)
    ∧ (t_outcome t = Loss ↔ ¬ win_cond ∧ ¬ tie_cond))
    (trace (simulateEquity rnd solve req w)).
Proof.
  intros Hh Hb.
  destruct (decide (rejected req (w_heap w))) as [Hr|Hr].
  - rewrite trace_rejected by done. constructor.
  - apply valid_or_rejected in Hr. apply Forall_forall. intros t Ht.
    destruct (trace_trial_of rnd solve req w Hr Hh Hb t Ht) as [k ->].
    rewrite trial_of_outcome. apply classify_spec.
Qed.

Lemma trial_outcome_classified_witness :
  Forall (λ t,
    let heroRank := sample_solve ([Some "As"; Some "Ks"] ++ t_simBoard t) in
    let oppRanks := (λ o, sample_solve (o ++ t_simBoard t)) <$> t_opponents t in
    let win_cond := Forall (λ r, (r < heroRank)%Z) oppRanks in
    let tie_cond := heroRank = max_rank heroRank oppRanks
                    ∧ max_rank heroRank oppRanks ∈ oppRanks in
    (t_outcome t = Win ↔ win_cond)
    ∧ (t_outcome t = Tie ↔ tie_cond)
    ∧ (t_outcome t = Loss ↔ ¬ win_cond ∧ ¬ tie_cond))
    (trace (simulateEquity sample_source sample_solve sample_request sample_world)).
Proof.
  apply (trial_outcome_classified sample_source sample_solve sample_request sample_world);
    simpl; lia.
Defined.

(** ** Binary64 rounding *)

#[global] Instance round_half_even_proper : Proper (Qeq ==> eq) round_half_even.
Proof.
  intros x y Hxy. unfold round_half_even.
  assert (Qfloor x = Qfloor y) as Hf by (by apply Qfloor_comp).
  rewrite <-Hf.
  assert ((x - inject_Z (Qfloor x) ?= (1 # 2)) = (y - inject_Z (Qfloor x) ?= (1 # 2)))%Q as Hc
    by (apply Qcompare_comp; [by apply Qplus_comp|done]).
  by rewrite Hc.
Qed.

Lemma round_half_even_near x :
  (inject_Z (round_half_even x) - (1 # 2) <= x <= inject_Z (round_half_even x) + (1 # 2))%Q.
Proof.
  unfold round_half_even.
  pose proof (Qfloor_le x) as Hlo. pose proof (Qlt_floor x) as Hhi.
  rewrite inject_Z_plus in Hhi. change (inject_Z 1) with 1%Q in Hhi.
  destruct (Qcompare_spec (x - inject_Z (Qfloor x)) (1 # 2)) as [H|H|H];
    [destruct (Z.even _)|..]; rewrite ?inject_Z_plus; change (inject_Z 1) with 1%Q;
    split; lra.
Qed.

Lemma round_half_even_Z (k : Z) : round_half_even (inject_Z k) = k.
Proof.
  unfold round_half_even. rewrite Qfloor_Z.
  destruct (Qcompare_spec (inject_Z k - inject_Z k) (1 # 2)) as [H|H|H]; [lra|done|lra].
Qed.

Lemma round_half_even_mono x y : (x <= y)%Q → (round_half_even x <= round_half_even y)%Z.
Proof.
  intros Hxy. pose proof (Qfloor_resp_le _ _ Hxy) as Hf.
  destruct (decide (Qfloor x = Qfloor y)) as [Heq|Hne].
  - unfold round_half_even. rewrite <-Heq.
    destruct (Qcompare_spec (x - inject_Z (Qfloor x)) (1 # 2)) as [H|H|H];
      destruct (Qcompare_spec (y - inject_Z (Qfloor x)) (1 # 2)) as [H'|H'|H'];
      try destruct (Z.even _); try lia; lra.
  - assert (Qfloor x + 1 <= Qfloor y)%Z as Hlt by lia.
    transitivity (Qfloor x + 1)%Z; [|transitivity (Qfloor y); [done|]].
    + unfold round_half_even. destruct (_ ?= _)%Q; [destruct (Z.even _)|..]; lia.
    + unfold round_half_even. destruct (_ ?= _)%Q; [destruct (Z.even _)|..]; lia.
Qed.

Lemma pow2_pos (k : Z) : (0 < 2 ^ k)%Q.
Proof. by apply Qpower_0_lt. Qed.

Lemma pow2_succ (k : Z) : (2 ^ (k + 1) == 2 * 2 ^ k)%Q.
Proof. rewrite Qpower_plus by done. change (2 ^ 1)%Q with 2%Q. ring. Qed.

Lemma pow2_plus (a b : Z) : (2 ^ (a + b) == 2 ^ a * 2 ^ b)%Q.
Proof. by apply Qpower_plus. Qed.

Lemma pow2_le (a b : Z) : (a <= b)%Z → (2 ^ a <= 2 ^ b)%Q.
Proof. intros. by apply Qpower_le_compat_l. Qed.

Lemma pow2_lt (a b : Z) : (a < b)%Z → (2 ^ a < 2 ^ b)%Q.
Proof. intros. by apply Qpower_lt_compat_l. Qed.

Lemma pow2_Z (k : Z) : (0 <= k)%Z → (inject_Z (2 ^ k) == 2 ^ k)%Q.
Proof. intros. by rewrite Zpower_Qpower. Qed.

Lemma log2_bounds (p : Z) :
  (0 < p)%Z → (2 ^ Z.log2 p <= inject_Z p)%Q ∧ (inject_Z p < 2 * 2 ^ Z.log2 p)%Q.
Proof.
  intros Hp. destruct (Z.log2_spec p Hp) as [Hlo Hhi].
  pose proof (Z.log2_nonneg p) as Hnn.
  rewrite <-pow2_succ, <-!pow2_Z by lia. rewrite <-Zle_Qle, <-Zlt_Qlt.
  replace (Z.log2 p + 1)%Z with (Z.succ (Z.log2 p)) by lia. done.
Qed.

Lemma binade_spec (x : Q) :
  (0 < x)%Q → (2 ^ binade x <= x)%Q ∧ (x < 2 ^ (binade x + 1))%Q.
Proof.
  intros Hx. destruct x as [p q].
  assert (0 < p)%Z as Hp by (unfold Qlt in Hx; simpl in Hx; lia).
  destruct (log2_bounds p Hp) as [Hp1 Hp2].
  destruct (log2_bounds (Zpos q) eq_refl) as [Hq1 Hq2].
  unfold binade. cbn [Qnum Qden].
  set (lp := Z.log2 p) in *. set (lq := Z.log2 (Z.pos q)) in *.
  assert (p # q == inject_Z p / inject_Z (Z.pos q))%Q as Hdiv by apply Qmake_Qdiv.
  assert (0 < inject_Z (Z.pos q))%Q as Hq0 by (unfold Qlt; simpl; lia).
  set (x := (p # q)%Q) in *.
  assert (x * inject_Z (Z.pos q) == inject_Z p)%Q as Hmul.
  { rewrite Hdiv. field. lra. }
  pose proof (pow2_pos lp) as HA. pose proof (pow2_pos lq) as HB.
  pose proof (pow2_pos (lp - lq)) as HD.
  assert (2 ^ (lp - lq) * 2 ^ lq == 2 ^ lp)%Q as Hd.
  { rewrite <-pow2_plus. by replace (lp - lq + lq)%Z with lp by lia. }
  destruct (Qle_bool (2 ^ (lp - lq)) x) eqn:Hle.
  - apply Qle_bool_iff in Hle. split; [done|]. rewrite pow2_succ. nra.
  - assert (x < 2 ^ (lp - lq))%Q as Hlt.
    { apply Qnot_le_lt. intros H. apply Qle_bool_iff in H. congruence. }
    replace (lp - lq - 1 + 1)%Z with (lp - lq)%Z by lia. split; [|done].
    assert (2 * 2 ^ (lp - lq - 1) == 2 ^ (lp - lq))%Q as Hh.
    { rewrite <-pow2_succ. by replace (lp - lq - 1 + 1)%Z with (lp - lq)%Z by lia. }
    pose proof (pow2_pos (lp - lq - 1)). nra.
Qed.

Lemma binade_unique (x : Q) (k : Z) :
  (2 ^ k <= x)%Q → (x < 2 ^ (k + 1))%Q → binade x = k.
Proof.
  intros Hlo Hhi.
  assert (0 < x)%Q as Hx by (pose proof (pow2_pos k); lra).
  destruct (binade_spec x Hx) as [Hlo' Hhi'].
  assert (binade x < k + 1)%Z.
  { apply (Qpower_lt_compat_l_inv 2); [lra|done]. }
  assert (k < binade x + 1)%Z.
  { apply (Qpower_lt_compat_l_inv 2); [lra|done]. }
  lia.
Qed.

Lemma round64_zero (x : Q) : (x == 0)%Q → round64 x = 0%Q.
Proof. intros H. unfold round64. apply Qeq_bool_iff in H. by rewrite H. Qed.

Lemma round64_eq (x : Q) :
  (0 < x)%Q →
  round64 x = (inject_Z (round_half_even (x / 2 ^ Z.max (binade x - 52) (-1074)))
               * 2 ^ Z.max (binade x - 52) (-1074))%Q.
Proof.
  intros Hx. unfold round64.
  destruct (Qeq_bool x 0) eqn:H0.
  { apply Qeq_bool_iff in H0. lra. }
  destruct x as [[|p|p] q]; try done.
Qed.

#[global] Instance round64_proper : Proper (Qeq ==> Qeq) round64.
Proof.
  intros x y Hxy. unfold round64.
  assert (Qeq_bool x 0 = Qeq_bool y 0) as H0.
  { destruct (Qeq_bool x 0) eqn:Hx, (Qeq_bool y 0) eqn:Hy; try done.
    - apply Qeq_bool_iff in Hx. apply Qeq_bool_neq in Hy. lra.
    - apply Qeq_bool_iff in Hy. apply Qeq_bool_neq in Hx. lra. }
  rewrite <-H0. destruct (Qeq_bool x 0) eqn:Hx; [done|].
  apply Qeq_bool_neq in Hx.
  assert (binade (Qabs x) = binade (Qabs y)) as Hb.
  { assert (0 < Qabs x)%Q as Hpos.
    { destruct (Qlt_le_dec 0 x); [rewrite Qabs_pos; lra|].
      rewrite Qabs_neg by done. lra. }
    destruct (binade_spec _ Hpos) as [Hlo Hhi].
    symmetry. apply binade_unique.
    - assert (Qabs y == Qabs x)%Q as -> by (by apply Qabs_wd). done.
    - assert (Qabs y == Qabs x)%Q as -> by (by apply Qabs_wd). done. }
  rewrite <-Hb. set (e := Z.max _ _).
  assert (round_half_even (x / 2 ^ e) = round_half_even (y / 2 ^ e)) as ->; [|done].
  apply round_half_even_proper. by apply Qmult_comp.
Qed.

(** In the normal range the last bit of [x] weighs
    [2 ^ (binade x - 52)], and the significand has 53 bits. *)
Lemma round64_normal (x : Q) :
  (2 ^ (-1022) <= x)%Q →
  let e := (binade x - 52)%Z in
  round64 x = (inject_Z (round_half_even (x / 2 ^ e)) * 2 ^ e)%Q
  ∧ (2 ^ 52 <= x / 2 ^ e)%Q ∧ (x / 2 ^ e < 2 * 2 ^ 52)%Q.
Proof.
  intros Hn e.
  assert (0 < x)%Q as Hx by (pose proof (pow2_pos (-1022)); lra).
  destruct (binade_spec x Hx) as [Hlo Hhi].
  assert (-1022 <= binade x)%Z as Hb.
  { assert (-1022 < binade x + 1)%Z; [|lia].
    apply (Qpower_lt_compat_l_inv 2); [lra|done]. }
  rewrite round64_eq by done. rewrite Z.max_l by lia. fold e.
  split; [done|].
  pose proof (pow2_pos e) as He.
  assert (2 ^ binade x == 2 ^ 52 * 2 ^ e)%Q as Hk.
  { rewrite <-pow2_plus. unfold e. by replace (52 + (binade x - 52))%Z with (binade x) by lia. }
  rewrite pow2_succ in Hhi.
  split.
  - apply Qle_shift_div_l; [done|]. lra.
  - apply Qlt_shift_div_r; [done|]. lra.
Qed.

Lemma u64_pow : (u64 == 2 ^ (-53))%Q.
Proof. by vm_compute. Qed.

Lemma round64_error (x : Q) :
  (2 ^ (-1022) <= x)%Q →
  (x * (1 - u64) <= round64 x)%Q ∧ (round64 x <= x * (1 + u64))%Q.
Proof.
  intros Hn. destruct (round64_normal x Hn) as (-> & Hlo & Hhi).
  set (e := (binade x - 52)%Z) in *. pose proof (pow2_pos e) as He.
  pose proof (round_half_even_near (x / 2 ^ e)) as [Hn1 Hn2].
  set (m := inject_Z (round_half_even (x / 2 ^ e))) in *.
  assert (x == x / 2 ^ e * 2 ^ e)%Q as Hx by (field; lra).
  set (y := (x / 2 ^ e)%Q) in *.
  assert (2 ^ 52 == inject_Z (2 ^ 52))%Q as H52 by (by rewrite pow2_Z).
  assert (u64 * 2 ^ 52 == 1 # 2)%Q as Hu by (by vm_compute).
  rewrite Hx. split.
  - assert (y * (1 - u64) <= m)%Q; [|nra]. nra.
  - assert (m <= y * (1 + u64))%Q; [|nra]. nra.
Qed.

Lemma round64_between (x : Q) (k : Z) :
  (-1022 <= k)%Z → (2 ^ k <= x)%Q → (x < 2 ^ (k + 1))%Q →
  (2 ^ k <= round64 x)%Q ∧ (round64 x <= 2 ^ (k + 1))%Q.
Proof.
  intros Hk Hlo Hhi.
  assert (2 ^ (-1022) <= x)%Q as Hn by (pose proof (pow2_le _ _ Hk); lra).
  destruct (round64_normal x Hn) as (-> & Hlo' & Hhi').
  rewrite (binade_unique x k) in * by done.
  set (e := (k - 52)%Z) in *. pose proof (pow2_pos e) as He.
  assert (2 ^ k == 2 ^ 52 * 2 ^ e)%Q as Hke.
  { rewrite <-pow2_plus. unfold e. by replace (52 + (k - 52))%Z with k by lia. }
  rewrite pow2_succ, Hke.
  assert (2 ^ 52 == inject_Z (2 ^ 52))%Q as H52 by (by rewrite pow2_Z).
  assert (2 * 2 ^ 52 == inject_Z (2 ^ 53))%Q as H53 by (by vm_compute).
  pose proof (round_half_even_mono _ _ Hlo') as Hm1. rewrite H52, round_half_even_Z in Hm1.
  assert (x / 2 ^ e <= inject_Z (2 ^ 53))%Q as Hhi'' by lra.
  pose proof (round_half_even_mono _ _ Hhi'') as Hm2. rewrite round_half_even_Z in Hm2.
  rewrite Zle_Qle in Hm1, Hm2. rewrite <-H52 in Hm1. rewrite <-H53 in Hm2.
  set (m := inject_Z (round_half_even (x / 2 ^ e))) in *. split; nra.
Qed.

Lemma round64_nonneg (x : Q) : (0 <= x)%Q → (0 <= round64 x)%Q.
Proof.
  intros Hx. destruct (Qeq_dec x 0) as [H0|H0]; [by rewrite round64_zero|].
  rewrite round64_eq by lra. set (e := Z.max _ _). pose proof (pow2_pos e) as He.
  assert (0 <= x / 2 ^ e)%Q as Hy.
  { apply Qle_shift_div_l; [done|]. lra. }
  pose proof (round_half_even_mono _ _ Hy) as Hm.
  change 0%Q with (inject_Z 0) in Hm at 1. rewrite round_half_even_Z in Hm.
  rewrite Zle_Qle in Hm. change (inject_Z 0) with 0%Q in Hm. nra.
Qed.

(** A number with at most 53 significant bits, the last one not below
    [2 ^ -1074], is a binary64 number. *)
Lemma round64_exact (m e : Z) :
  (0 < m <= 2 ^ 53)%Z → (-1074 <= e)%Z →
  (round64 (inject_Z m * 2 ^ e) == inject_Z m * 2 ^ e)%Q.
Proof.
  intros [Hm0 Hm] He. pose proof (pow2_pos e) as Hpe.
  set (y := (inject_Z m * 2 ^ e)%Q).
  assert (0 < inject_Z m)%Q as HmQ.
  { change 0%Q with (inject_Z 0). rewrite <-Zlt_Qlt. lia. }
  assert (inject_Z m <= 2 * 2 ^ 52)%Q as HmQ'.
  { assert (2 * 2 ^ 52 == inject_Z (2 ^ 53))%Q as -> by (by vm_compute).
    by rewrite <-Zle_Qle. }
  assert (0 < y)%Q as Hy by (unfold y; nra).
  destruct (binade_spec y Hy) as [Hlo Hhi].
  rewrite round64_eq by done. fold y.
  assert (2 ^ (53 + e) == 2 * 2 ^ 52 * 2 ^ e)%Q as H53.
  { rewrite pow2_plus. assert (2 ^ 53 == 2 * 2 ^ 52)%Q as -> by (by vm_compute). done. }
  assert (binade y <= 53 + e)%Z as Hk.
  { apply (Qpower_le_compat_l_inv 2); [|done]. rewrite H53. unfold y in *. nra. }
  destruct (decide (binade y = 53 + e)%Z) as [Heq|Hne].
  - (* the significand is 2^53 *)
    assert (y == 2 ^ 52 * 2 ^ (e + 1))%Q as Hy2.
    { rewrite Heq, H53 in Hlo. rewrite pow2_succ. unfold y in *. nra. }
    rewrite Heq. rewrite Z.max_l by lia.
    replace (53 + e - 52)%Z with (e + 1)%Z by lia.
    pose proof (pow2_pos (e + 1)) as Hpe1.
    assert (y / 2 ^ (e + 1) == inject_Z (2 ^ 52))%Q as ->.
    { rewrite Hy2, pow2_Z by done. field. lra. }
    rewrite round_half_even_Z, pow2_Z by done. by rewrite Hy2.
  - set (e' := Z.max (binade y - 52) (-1074)).
    assert (e' <= e)%Z as He' by (unfold e'; lia).
    pose proof (pow2_pos e') as Hpe'.
    assert (2 ^ e == 2 ^ (e - e') * 2 ^ e')%Q as Hsplit.
    { rewrite <-pow2_plus. by replace (e - e' + e')%Z with e by lia. }
    assert (y / 2 ^ e' == inject_Z (m * 2 ^ (e - e')))%Q as ->.
    { rewrite inject_Z_mult, pow2_Z by lia. unfold y. rewrite Hsplit. field. lra. }
    rewrite round_half_even_Z, inject_Z_mult, pow2_Z by lia.
    unfold y. rewrite Hsplit. ring.
Qed.

(** The result of a rounding is a binary64 number, and so is its half. *)
Lemma round64_half (x : Q) :
  (2 ^ (-1021) <= x)%Q → (round64 (round64 x / 2) == round64 x / 2)%Q.
Proof.
  intros Hx.
  assert (2 ^ (-1022) <= x)%Q as Hn.
  { pose proof (pow2_le (-1022) (-1021)). lra. }
  destruct (round64_normal x Hn) as (Heq & Hlo & Hhi).
  assert (0 < x)%Q as Hx0 by (pose proof (pow2_pos (-1022)); lra).
  destruct (binade_spec x Hx0) as [Hb1 Hb2].
  assert (-1021 <= binade x)%Z as Hb.
  { assert (-1021 < binade x + 1)%Z; [|lia].
    apply (Qpower_lt_compat_l_inv 2); [lra|done]. }
  set (e := (binade x - 52)%Z) in *. pose proof (pow2_pos e) as He.
  set (m := round_half_even (x / 2 ^ e)) in *.
  assert (2 ^ 52 == inject_Z (2 ^ 52))%Q as H52 by (by rewrite pow2_Z).
  assert (2 * 2 ^ 52 == inject_Z (2 ^ 53))%Q as H53 by (by vm_compute).
  pose proof (round_half_even_mono _ _ Hlo) as Hm1. rewrite H52, round_half_even_Z in Hm1.
  assert (x / 2 ^ e <= inject_Z (2 ^ 53))%Q as Hhi' by lra.
  pose proof (round_half_even_mono _ _ Hhi') as Hm2. rewrite round_half_even_Z in Hm2.
  fold m in Hm1, Hm2.
  assert (round64 x / 2 == inject_Z m * 2 ^ (e - 1))%Q as Hhalf.
  { rewrite Heq. assert (2 ^ e == 2 * 2 ^ (e - 1))%Q as ->.
    { rewrite <-pow2_succ. by replace (e - 1 + 1)%Z with e by lia. }
    field. }
  rewrite Hhalf. apply round64_exact; [|unfold e; lia].
  assert (0 < 2 ^ 52)%Z by done. lia.
Qed.

Lemma round64_le_1 (y : Q) : (0 <= y)%Q → (y <= 1 + u64)%Q → (round64 y <= 1)%Q.
Proof.
  intros H0 Hy.
  destruct (Qeq_dec y 0) as [Hz|Hz]; [by rewrite round64_zero|].
  assert (0 < y)%Q as Hpos by lra.
  destruct (Qlt_le_dec y 1) as [Hlt|Hge].
  - (* below one: the rounding stays within the binade, or below the least normal number *)
    destruct (binade_spec y Hpos) as [Hlo Hhi].
    assert (binade y < 0)%Z as Hneg.
    { apply (Qpower_lt_compat_l_inv 2); [|done]. change (2 ^ 0)%Q with 1%Q. lra. }
    destruct (decide (-1022 <= binade y)%Z) as [Hn|Hs].
    + destruct (round64_between y (binade y) Hn Hlo Hhi) as [_ Hr].
      pose proof (pow2_le (binade y + 1) 0 ltac:(lia)) as Hle.
      change (2 ^ 0)%Q with 1%Q in Hle. lra.
    + rewrite round64_eq by done. rewrite Z.max_r by lia.
      assert (y / 2 ^ (-1074) <= inject_Z (2 ^ 52))%Q as Hs'.
      { apply Qle_shift_div_r; [apply pow2_pos|].
        assert (inject_Z (2 ^ 52) * 2 ^ (-1074) == 2 ^ (-1022))%Q as -> by (by vm_compute).
        pose proof (pow2_le (binade y + 1) (-1022) ltac:(lia)). lra. }
      pose proof (round_half_even_mono _ _ Hs') as Hm. rewrite round_half_even_Z in Hm.
      rewrite Zle_Qle in Hm. pose proof (pow2_pos (-1074)) as Hp.
      assert (inject_Z (2 ^ 52) * 2 ^ (-1074) <= 1)%Q as Hone by (by vm_compute).
      set (m := inject_Z (round_half_even _)) in *. nra.
  - (* from one to the midpoint above it *)
    assert (binade y = 0%Z) as Hb.
    { apply binade_unique; [change (2 ^ 0)%Q with 1%Q; lra|].
      change (2 ^ (0 + 1))%Q with 2%Q. unfold u64 in Hy.
      assert ((1 # 2 ^ 53) < 1)%Q by done. lra. }
    rewrite round64_eq by done. rewrite Hb. rewrite Z.max_l by lia.
    change (0 - 52)%Z with (-52)%Z.
    assert (y / 2 ^ (-52) <= inject_Z (2 ^ 52) + (1 # 2))%Q as Hs.
    { apply Qle_shift_div_r; [apply pow2_pos|].
      assert ((inject_Z (2 ^ 52) + (1 # 2)) * 2 ^ (-52) == 1 + u64)%Q as -> by (by vm_compute).
      done. }
    assert (round_half_even (inject_Z (2 ^ 52) + (1 # 2)) = 2 ^ 52)%Z as Hmid by (by vm_compute).
    pose proof (round_half_even_mono _ _ Hs) as Hm. rewrite Hmid in Hm.
    rewrite Zle_Qle in Hm. pose proof (pow2_pos (-52)) as Hp.
    assert (inject_Z (2 ^ 52) * 2 ^ (-52) == 1)%Q as Hone by (by vm_compute).
    set (m := inject_Z (round_half_even _)) in *. nra.
Qed.

(** [round64] against the Standard Library's IEEE 754 division and
    addition: every quotient [a / b] of counts up to 40, every sum of
    two quotients over counts up to 12, and the sum of the three rates
    for some counters. *)
Example round64_agrees_with_SpecFloat :
  forallb (λ b, forallb (λ a,
      same_number (SF2Q (SFdiv 53 1024 (Z2SF (Z.of_nat a)) (Z2SF (Z.of_nat b))))
                  (jsdiv (Z.of_nat a) (inject_Z (Z.of_nat b))))
    (seq 0 (S b))) (seq 1 40) = true
  ∧ forallb (λ b, forallb (λ a, forallb (λ c,
      same_number
        (SF2Q (SFadd 53 1024 (SFdiv 53 1024 (Z2SF (Z.of_nat a)) (Z2SF (Z.of_nat b)))
                             (SFdiv 53 1024 (Z2SF (Z.of_nat c)) (Z2SF (Z.of_nat b)))))
        (jsadd (jsdiv (Z.of_nat a) (inject_Z (Z.of_nat b)))
               (jsdiv (Z.of_nat c) (inject_Z (Z.of_nat b)))))
    (seq 0 (S b))) (seq 0 (S b))) (seq 1 12) = true
  ∧ forallb (λ '(w, t, l),
      let n := (w + t + l)%Z in
      same_number
        (SF2Q (SFadd 53 1024
                 (SFadd 53 1024 (SFdiv 53 1024 (Z2SF w) (Z2SF n))
                                (SFdiv 53 1024 (Z2SF t) (Z2SF n)))
                 (SFdiv 53 1024 (Z2SF l) (Z2SF n))))
        (jsadd (jsadd (jsdiv w (inject_Z n)) (jsdiv t (inject_Z n)))
               (jsdiv l (inject_Z n))))
    [(4, 1, 1); (1, 4, 1); (1, 1, 1); (7000, 6000, 7000); (6543, 12345, 1112);
     (199999, 0, 1); (66667, 66666, 66667)]%Z = true.
Proof. split_and!; by vm_compute. Qed.

(** Rates that add up to 0.9999999999999999 where the counters add up to
    the number of trials: 4, 1 and 1 over 6, and 7000, 6000 and 7000 over
    20000. *)
Example sums_below_one :
  Forall (λ '(w, t, l),
      let n := inject_Z (w + t + l) in
      ∃ s, jsadd (jsadd (jsdiv w n) (jsdiv t n)) (jsdiv l n) = Some s
           ∧ (s == 1 - u64)%Q)
    [(4, 1, 1); (7000, 6000, 7000)]%Z.
Proof. repeat constructor; eexists; split; by vm_compute. Qed.

(** ** The rates *)

Lemma jsdiv_nonzero (c : Z) (n : Q) :
  ¬ (n == 0)%Q → jsdiv c n = Some (round64 (inject_Z c / n)).
Proof.
  intros Hn. unfold jsdiv. destruct (Qeq_bool n 0) eqn:H; [|done].
  by apply Qeq_bool_iff in H.
Qed.

Lemma u64_value : u64 = (1 # 9007199254740992)%Q.
Proof. reflexivity. Qed.

Lemma quotient_nonneg (c : Z) (n : Q) : (0 <= c)%Z → (0 < n)%Q → (0 <= inject_Z c / n)%Q.
Proof.
  intros Hc Hn. apply Qle_shift_div_l; [done|]. rewrite Qmult_0_l.
  change 0%Q with (inject_Z 0). rewrite <-Zle_Qle. lia.
Qed.

(** The quotient of a counter by a count of at most [2 ^ 53] is zero or
    in the normal range: its rounding is off by at most [u64] of it, and
    half the rounded quotient is again a binary64 number. *)
Lemma quotient_rounded (c : Z) (n : Q) :
  (0 <= c)%Z → (0 < n)%Q → (n <= 2 ^ 53)%Q →
  let x := (inject_Z c / n)%Q in
  (x * (1 - u64) <= round64 x)%Q ∧ (round64 x <= x * (1 + u64))%Q
  ∧ (0 <= round64 x)%Q ∧ (round64 (round64 x / 2) == round64 x / 2)%Q.
Proof.
  intros Hc Hn Hn' x.
  pose proof (quotient_nonneg c n Hc Hn) as Hx0. fold x in Hx0.
  destruct (decide (c = 0%Z)) as [->|Hne].
  - assert (x == 0)%Q as Hz by (unfold x; change (inject_Z 0) with 0%Q; field; lra).
    rewrite (round64_zero x Hz).
    assert (0 / 2 == 0)%Q as Hh by (by vm_compute).
    rewrite (round64_zero _ Hh), Hz, u64_value. split_and!; lra.
  - assert (2 ^ (-53) <= x)%Q as Hlo.
    { apply Qle_shift_div_l; [done|].
      assert (2 ^ (-53) * 2 ^ 53 == 1)%Q as H1 by (by vm_compute).
      assert (1 <= inject_Z c)%Q as Hc1.
      { change 1%Q with (inject_Z 1). rewrite <-Zle_Qle. lia. }
      pose proof (pow2_pos (-53)). nra. }
    pose proof (pow2_le (-1021) (-53) ltac:(lia)) as H1.
    pose proof (pow2_le (-1022) (-53) ltac:(lia)) as H2.
    destruct (round64_error x) as [He1 He2]; [lra|].
    split_and!; [done|done|apply round64_nonneg; lra|apply round64_half; lra].
Qed.

(** The three rates and the equity, for counters that add up to [T]
    passes and a count [n]: the rates add up to [T / n] up to the rounding
    of each, halving the tie rate is exact, and the equity is at most 1
    when the passes do not exceed the count. *)
Lemma rates_rounded (w t l T : Z) (n : Q) :
  (0 <= w)%Z → (0 <= t)%Z → (0 <= l)%Z → (w + t + l = T)%Z →
  (0 < n)%Q → (n <= 2 ^ 53)%Q →
  let qw := round64 (inject_Z w / n) in
  let qt := round64 (inject_Z t / n) in
  let ql := round64 (inject_Z l / n) in
  let k := (inject_Z T / n)%Q in
  (inject_Z w / n + inject_Z t / n + inject_Z l / n == k)%Q
  ∧ (0 <= qw)%Q ∧ (0 <= qt)%Q ∧ (0 <= ql)%Q
  ∧ (k * (1 - u64) <= qw + qt + ql)%Q ∧ (qw + qt + ql <= k * (1 + u64))%Q
  ∧ (round64 (qw + round64 (qt / 2)) == round64 (qw + qt / 2))%Q
  ∧ (0 <= round64 (qw + round64 (qt / 2)))%Q
  ∧ ((k <= 1)%Q → (round64 (qw + round64 (qt / 2)) <= 1)%Q).
Proof.
  intros Hw Ht Hl Hsum Hn Hn' qw qt ql k.
  destruct (quotient_rounded w n Hw Hn Hn') as (Hw1 & Hw2 & Hw0 & _).
  destruct (quotient_rounded t n Ht Hn Hn') as (Ht1 & Ht2 & Ht0 & Hhalf).
  destruct (quotient_rounded l n Hl Hn Hn') as (Hl1 & Hl2 & Hl0 & _).
  pose proof (quotient_nonneg w n Hw Hn) as Hxw.
  pose proof (quotient_nonneg t n Ht Hn) as Hxt.
  pose proof (quotient_nonneg l n Hl Hn) as Hxl.
  fold qw in Hw1, Hw2, Hw0. fold qt in Ht1, Ht2, Ht0, Hhalf. fold ql in Hl1, Hl2, Hl0.
  assert (inject_Z w / n + inject_Z t / n + inject_Z l / n == k)%Q as Hk.
  { unfold k. rewrite <-Hsum, !inject_Z_plus. field. lra. }
  set (xw := (inject_Z w / n)%Q) in *. set (xt := (inject_Z t / n)%Q) in *.
  set (xl := (inject_Z l / n)%Q) in *.
  rewrite u64_value in *.
  assert (round64 (qw + round64 (qt / 2)) == round64 (qw + qt / 2))%Q as Heq.
  { apply round64_proper. by rewrite Hhalf. }
  assert (qt / 2 == (1 # 2) * qt)%Q as Hh by field.
  split_and!; try done; try lra.
  - rewrite Heq. apply round64_nonneg. rewrite Hh. lra.
  - intros Hk1. rewrite Heq. apply round64_le_1; rewrite Hh, ?u64_value; lra.
Qed.




(** C7.  In every trial of a validated request (two hole-card slots, at
    most five board slots) the board is completed to five cards, every
    opponent holds two, and the hero's cards, the board and all the
    opponents' cards are pairwise distinct.  The cards on the table that
    were not given in the request are the first [t_idx] cards of the
    shuffled deck, each position used once in the order of the cursor,
    and none of them is a known card. *)
Theorem trial_cards_disjoint rnd solve req w :
  valid_request req (w_heap w) →
  well_formed req (w_heap w) →
  let known := known_of req (w_heap w) in
  Forall (λ t,
    length (t_simBoard t) = 5
    ∧ length (t_opponents t) = Z.to_nat (players req - 1)
    ∧ Forall (λ o, length o = 2) (t_opponents t)
    ∧ NoDup (hread (w_heap w) (hero req) ++ t_simBoard t ++ concat (t_opponents t))
    ∧ t_deck t ≡ₚ makeDeck known
    ∧ t_simBoard t ++ concat (t_opponents t)
        ≡ₚ filterBoolean (hread (w_heap w) (board req)) ++ take (t_idx t) (t_deck t)
    ∧ Forall (λ c, c ∉ known) (take (t_idx t) (t_deck t)))
    (trace (simulateEquity rnd solve req w)).
Proof.
  intros Hv Hwf known. apply Forall_forall. intros t Ht.
  destruct (trace_sound rnd solve req w Hv Hwf t Ht)
    as (Hd & Hb & Ho & Ho2 & _ & _ & _ & Hcards & Hnd & Hdealt).
  split_and!; try done. apply Forall_forall. intros c Hc. by apply Hdealt.
Qed.

Lemma trial_cards_disjoint_witness :
  let e := simulateEquity sample_source sample_solve sample_request sample_world in
  let known := known_of sample_request sample_heap in
  Forall (λ t,
    length (t_simBoard t) = 5
    ∧ length (t_opponents t) = 2
    ∧ Forall (λ o, length o = 2) (t_opponents t)
    ∧ NoDup ([Some "As"; Some "Ks"] ++ t_simBoard t ++ concat (t_opponents t))
    ∧ t_deck t ≡ₚ makeDeck known
    ∧ t_simBoard t ++ concat (t_opponents t)
        ≡ₚ [Some "Qd"; Some "Jd"; Some "Td"] ++ take (t_idx t) (t_deck t)
    ∧ Forall (λ c, c ∉ known) (take (t_idx t) (t_deck t)))
    (trace e).
Proof.
  apply (trial_cards_disjoint sample_source sample_solve sample_request sample_world).
  - apply sample_valid.
  - apply sample_well_formed.
Defined.

(** C8.  For every validated request (two hole-card slots, at most five
    board slots) the cards a trial needs, two for each opponent and one
    for each unknown board slot, never exceed 52 minus the number of
    known cards, which the deck always holds.  Hence in every trial the
    cursor stays within the deck, and every card drawn is one of the 52,
    never [undefined]. *)
Theorem deck_never_runs_out rnd solve req w :
  valid_request req (w_heap w) →
  well_formed req (w_heap w) →
  let known := known_of req (w_heap w) in
  required_cards req (w_heap w) ≤ 52 - size known
  ∧ 52 - size known ≤ length (makeDeck known)
  ∧ Forall (λ t,
      t_idx t = required_cards req (w_heap w)
      ∧ t_idx t ≤ length (t_deck t)
      ∧ length (dealt t) = t_idx t
      ∧ Forall (λ c, c ∈ ALL_CARDS) (dealt t)
      ∧ Forall (λ c, c ≠ undefined) (t_simBoard t ++ concat (t_opponents t)))
      (trace (simulateEquity rnd solve req w)).
Proof.
  intros Hv Hwf known.
  assert (required_cards req (w_heap w) ≤ 52 - size known) as Hreq.
  { destruct Hv as (Hnd & Hp & H0 & H1). destruct Hwf as (_ & _ & Hhl & Hbl).
    pose proof (known_size _ _ Hnd Hhl H0 H1) as Hks.
    pose proof (unknown_slots_known _ Hbl) as Hun.
    unfold known, known_of, selected, required_cards. lia. }
  split_and!; [done| pose proof (makeDeck_length_ge known); lia |].
  apply Forall_forall. intros t Ht.
  destruct (trace_sound rnd solve req w Hv Hwf t Ht)
    as (Hd & _ & _ & _ & Hidx & Hle & Hlen & Hcards & _ & Hdealt).
  fold known in Hle, Hlen, Hdealt.
  split_and!; [done | lia | unfold dealt; rewrite length_take; lia | |].
  - apply Forall_forall. intros c Hc. by apply Hdealt.
  - rewrite Hcards. apply Forall_app. split; apply Forall_forall; intros c Hc.
    + apply list_elem_of_filter in Hc as [Hc _]. by destruct c.
    + apply Hdealt in Hc as [Hc _]. intros ->. revert Hc.
      apply (bool_decide_unpack _). by vm_compute.
Qed.

Lemma deck_never_runs_out_witness :
  let e := simulateEquity sample_source sample_solve sample_request sample_world in
  let known := known_of sample_request sample_heap in
  required_cards sample_request sample_heap ≤ 52 - size known
  ∧ 52 - size known ≤ length (makeDeck known)
  ∧ Forall (λ t,
      t_idx t = required_cards sample_request sample_heap
      ∧ t_idx t ≤ length (t_deck t)
      ∧ length (dealt t) = t_idx t
      ∧ Forall (λ c, c ∈ ALL_CARDS) (dealt t)
      ∧ Forall (λ c, c ≠ undefined) (t_simBoard t ++ concat (t_opponents t)))
      (trace e).
Proof.
  apply (deck_never_runs_out sample_source sample_solve sample_request sample_world).
  - apply sample_valid.
  - apply sample_well_formed.
Defined.

(** C10.  [simulateEquity] leaves the caller's [hero] and [board] arrays
    as they were, whether it returns or throws: every array allocated
    before the call keeps its contents, and the call only adds arrays of
    its own (the deck and the board copy of each trial). *)
Theorem simulateEquity_preserves_inputs rnd solve req w :
  hero req < length (w_heap w) →
  board req < length (w_heap w) →
  let e := simulateEquity rnd solve req w in
  hread (w_heap (final e)) (hero req) = hread (w_heap w) (hero req)
  ∧ hread (w_heap (final e)) (board req) = hread (w_heap w) (board req)
  ∧ w_heap w `prefix_of` w_heap (final e).
Proof.
  intros Hh Hb e. destruct (simulateEquity_heap rnd solve req w) as [ext Hext].
  unfold e. rewrite Hext. split_and!.
  - by apply hread_app_l.
  - by apply hread_app_l.
  - by exists ext.
Qed.

Lemma simulateEquity_preserves_inputs_witness :
  let e := simulateEquity sample_source sample_solve sample_request sample_world in
  hread (w_heap (final e)) 0 = [Some "As"; Some "Ks"]
  ∧ hread (w_heap (final e)) 1 = [Some "Qd"; Some "Jd"; Some "Td"; Some blank; Some blank]
  ∧ w_heap sample_world `prefix_of` w_heap (final e).
Proof.
  apply (simulateEquity_preserves_inputs sample_source sample_solve
           sample_request sample_world); simpl; lia.
Defined.

(** * Further properties *)

(** ** The order of the guards *)

Lemma messages_distinct :
  duplicate_message ≠ players_message ∧ duplicate_message ≠ hero_message
  ∧ players_message ≠ hero_message.
Proof. split_and!; by vm_compute. Qed.

Lemma first_failing_guard rnd solve req w :
  let h := w_heap w in
  (¬ NoDup (selected req h) →
   completion (simulateEquity rnd solve req w) = Threw duplicate_message)
  ∧ (NoDup (selected req h) → (players req < 2 ∨ players req > 10)%Z →
     completion (simulateEquity rnd solve req w) = Threw players_message)
  ∧ (NoDup (selected req h) → ¬ (players req < 2 ∨ players req > 10)%Z →
     ¬ truthy (aget (hread h (hero req)) 0) ∨ ¬ truthy (aget (hread h (hero req)) 1) →
     completion (simulateEquity rnd solve req w) = Threw hero_message)
  ∧ (valid_request req h →
     ∃ r, completion (simulateEquity rnd solve req w) = Returned r).
Proof.
  intros h. split_and!.
  - apply validation_outcome.
  - intros Hnd Hp. unfold simulateEquity. fold h.
    rewrite decide_False; [|unfold known_of; rewrite size_list_to_set by done; tauto].
    by rewrite decide_True.
  - intros Hnd Hp Hh. unfold simulateEquity. fold h.
    rewrite decide_False; [|unfold known_of; rewrite size_list_to_set by done; tauto].
    rewrite decide_False by done.
    destruct (truthy (aget (hread h (hero req)) 0)); [|done].
    destruct (truthy (aget (hread h (hero req)) 1)); [|done].
    simpl in Hh. tauto.
  - intros Hv. rewrite simulateEquity_valid by done.
    destruct (trials _ _ _ _ _ _ _ _) as [[??]?]. by eexists.
Qed.

(** X1.  The guards of [simulateEquity] are tried in the order duplicate
    cards, player count, hole cards, and the first one that fails gives
    the message.  The duplicate message is thrown exactly when the
    selected cards of [hero] and [board] repeat a card; the players
    message exactly when no card is repeated and the count is outside
    [2..10]; the hole-card message exactly when no card is repeated, the
    count is within range and a hole card is blank or missing. *)
Theorem simulateEquity_error_precedence rnd solve req w :
  let e := simulateEquity rnd solve req w in
  let h := w_heap w in
  let out_of_range := (players req < 2 ∨ players req > 10)%Z in
  let hole_missing := ¬ truthy (aget (hread h (hero req)) 0)
                      ∨ ¬ truthy (aget (hread h (hero req)) 1) in
  (completion e = Threw duplicate_message ↔ ¬ NoDup (selected req h))
  ∧ (completion e = Threw players_message ↔ NoDup (selected req h) ∧ out_of_range)
  ∧ (completion e = Threw hero_message
     ↔ NoDup (selected req h) ∧ ¬ out_of_range ∧ hole_missing).
Proof.
  intros e h out_of_range hole_missing.
  destruct messages_distinct as (Hdp & Hdh & Hph).
  destruct (first_failing_guard rnd solve req w) as (Hdup & Hpl & Hhero & Hok).
  fold h e in Hdup, Hpl, Hhero, Hok. fold out_of_range in Hpl, Hhero.
  fold hole_missing in Hhero.
  destruct (decide (NoDup (selected req h))) as [Hnd|Hnd].
  - destruct (decide out_of_range) as [Hp|Hp].
    + rewrite (Hpl Hnd Hp). split_and!; split; try tauto; intros [=]; congruence.
    + destruct (decide hole_missing) as [Hh|Hh].
      * rewrite (Hhero Hnd Hp Hh). split_and!; split; try tauto; intros [=]; congruence.
      * destruct Hok as [r ->].
        { unfold valid_request. fold h. unfold out_of_range in Hp.
          unfold hole_missing in Hh.
          destruct (truthy (aget (hread h (hero req)) 0));
            destruct (truthy (aget (hread h (hero req)) 1)); simpl in *;
            split_and!; try done; try tauto; lia. }
        split_and!; split; try tauto; intros [=].
  - rewrite (Hdup Hnd). split_and!; split; try tauto; intros [=]; congruence.
Qed.

(** ** Requests without trials, decks of any set *)

(** X2.  A valid request with an iteration count of zero or less,
    whole or not, runs no trial: nothing is allocated, no random number
    is drawn, the counters stay at zero and the call returns, handing
    back the count as given.  With a count of zero the four rates are
    [0/0], not a number; with a negative count they are zero. *)
Theorem simulateEquity_without_trials rnd solve req w :
  valid_request req (w_heap w) →
  (iterations req <= 0)%Q →
  let e := simulateEquity rnd solve req w in
  trace e = [] ∧ tally e = zero_tally ∧ final e = w
  ∧ ∃ r, completion e = Returned r ∧ res_iterations r = iterations req
         ∧ ((iterations req == 0)%Q →
            win r = None ∧ tie r = None ∧ loss r = None ∧ equity r = None)
         ∧ ((iterations req < 0)%Q →
            ∃ qw qt ql qe,
              win r = Some qw ∧ tie r = Some qt ∧ loss r = Some ql ∧ equity r = Some qe
              ∧ (qw == 0)%Q ∧ (qt == 0)%Q ∧ (ql == 0)%Q ∧ (qe == 0)%Q).
Proof.
  intros Hv Hn e. unfold e. rewrite simulateEquity_valid by done.
  assert (passes (iterations req) = 0) as ->.
  { unfold passes. pose proof (Qceiling_resp_le _ _ Hn) as H.
    change (Qceiling 0) with 0%Z in H. lia. }
  cbn [trials trace tally final completion]. split_and!; try done.
  eexists. split; [done|]. cbn [win tie loss equity res_iterations wins ties losses zero_tally].
  split; [done|]. split.
  - intros H0. unfold jsdiv. apply Qeq_bool_iff in H0. by rewrite H0.
  - intros Hneg. rewrite jsdiv_nonzero by lra. cbn [jsadd jshalf].
    assert (inject_Z 0 / iterations req == 0)%Q as Hz.
    { change (inject_Z 0) with 0%Q. field. lra. }
    rewrite (round64_zero _ Hz).
    do 4 eexists. split_and!; try done.
Qed.

Lemma simulateEquity_without_trials_witness :
  let req := {| players := 2; hero := 0; board := 1; iterations := -3 |} in
  let e := simulateEquity sample_source sample_solve req sample_world in
  trace e = [] ∧ tally e = zero_tally ∧ final e = sample_world
  ∧ ∃ r, completion e = Returned r ∧ res_iterations r = (-3)%Q
         ∧ ((-3 == 0)%Q →
            win r = None ∧ tie r = None ∧ loss r = None ∧ equity r = None)
         ∧ ((-3 < 0)%Q →
            ∃ qw qt ql qe,
              win r = Some qw ∧ tie r = Some qt ∧ loss r = Some ql ∧ equity r = Some qe
              ∧ (qw == 0)%Q ∧ (qt == 0)%Q ∧ (ql == 0)%Q ∧ (qe == 0)%Q).
Proof.
  apply (simulateEquity_without_trials sample_source sample_solve
           {| players := 2; hero := 0; board := 1; iterations := -3 |} sample_world).
  - unfold valid_request. split_and!; try by vm_compute.
    apply (bool_decide_unpack _). by vm_compute.
  - by vm_compute.
Defined.

Lemma makeDeck_union (exclude more : gset val) :
  makeDeck (exclude ∪ more) = filter (λ c, c ∉ more) (makeDeck exclude).
Proof.
  unfold makeDeck. rewrite list_filter_filter. apply list_filter_iff.
  intros c. rewrite not_elem_of_union. tauto.
Qed.

Lemma filter_agree {A} (P Q : A → Prop) `{!∀ x, Decision (P x), !∀ x, Decision (Q x)}
    (l : list A) :
  (∀ x, x ∈ l → (P x ↔ Q x)) → filter P l = filter Q l.
Proof.
  induction l as [|a l IH]; intros Hl; [done|].
  rewrite !filter_cons. rewrite IH by (intros x Hx; apply Hl; by right).
  apply decide_ext, Hl. by left.
Qed.

(** X4.  [makeDeck] on any set, whatever it holds.  Without exclusions
    the deck is [ALL_CARDS]; members of the set that are not cards make
    no difference, and the deck has 52 entries less the number of cards
    in the set; excluding a union is filtering the deck of one part by
    the other; a larger set gives a sub-sequence of the deck; and the
    deck is empty exactly when all 52 cards are excluded. *)
Theorem makeDeck_any_set (exclude : gset val) :
  makeDeck ∅ = ALL_CARDS
  ∧ makeDeck exclude = makeDeck (exclude ∩ list_to_set ALL_CARDS)
  ∧ length (makeDeck exclude) = 52 - size (exclude ∩ list_to_set ALL_CARDS)
  ∧ (∀ more, makeDeck (exclude ∪ more) = filter (λ c, c ∉ more) (makeDeck exclude))
  ∧ (∀ more, exclude ⊆ more → makeDeck more `sublist_of` makeDeck exclude)
  ∧ (makeDeck exclude = [] ↔ ∀ c, c ∈ ALL_CARDS → c ∈ exclude).
Proof.
  assert (makeDeck exclude = makeDeck (exclude ∩ list_to_set ALL_CARDS)) as Hcap.
  { unfold makeDeck. apply filter_agree. intros c Hc.
    rewrite elem_of_intersection, elem_of_list_to_set. tauto. }
  split_and!.
  - by vm_compute.
  - done.
  - rewrite Hcap.
    pose proof (makeDeck_length (exclude ∩ list_to_set ALL_CARDS)) as Hlen.
    rewrite <-Hlen; [lia|]. intros c [_ Hc]%elem_of_intersection.
    by apply elem_of_list_to_set in Hc.
  - apply makeDeck_union.
  - intros more Hsub. replace more with (exclude ∪ more) by (by apply subseteq_union_1_L).
    rewrite makeDeck_union. apply sublist_filter.
  - split.
    + intros Hnil c Hc. destruct (decide (c ∈ exclude)) as [|Hn]; [done|].
      exfalso. apply (filter_nil_not_elem_of _ _ c Hnil Hn Hc).
    + intros Hall. apply elem_of_nil_inv. intros c [Hc Hn]%makeDeck_elem.
      by apply Hn, Hall.
Qed.

(** ** Card labels *)

Lemma NoDup_card_labels : NoDup (cardLabel <$> ALL_CARDS).
Proof. apply (bool_decide_unpack _). by vm_compute. Qed.

Lemma fmap_NoDup_inj {A B} (f : A → B) (l : list A) x y :
  NoDup (f <$> l) → x ∈ l → y ∈ l → f x = f y → x = y.
Proof.
  intros Hnd [i Hi]%list_elem_of_lookup [j Hj]%list_elem_of_lookup Heq.
  assert (i = j) as ->.
  { eapply NoDup_lookup; [exact Hnd| |].
    - rewrite list_lookup_fmap, Hi. reflexivity.
    - rewrite list_lookup_fmap, Hj. simpl. by rewrite Heq. }
  congruence.
Qed.

Lemma suitMap_dom : dom suitMap = list_to_set SUITS.
Proof. apply (bool_decide_unpack _). by vm_compute. Qed.

Lemma suitMap_suits su : su ∈ SUITS ↔ is_Some (suitMap !! su).
Proof. by rewrite <-elem_of_dom, suitMap_dom, elem_of_list_to_set. Qed.

Lemma card_labels_table :
  Forall (λ rk, Forall (λ su, cardLabel (Some (rk +:+ su))
                              = rk +:+ to_text (suitMap !! su)) SUITS) RANKS.
Proof. apply (bool_decide_unpack _). by vm_compute. Qed.

Lemma card_labels_shown : Forall (λ c, cardLabel c ≠ "--") ALL_CARDS.
Proof. apply (bool_decide_unpack _). by vm_compute. Qed.

(** X6.  [cardLabel].  A blank or missing card is shown as "--".  The
    keys of the suit table are the four suits, and a card of rank [rk]
    and suit [su] is shown as the rank followed by the symbol of the
    suit.  On the 52 cards the label is injective and never "--".  A
    non-empty string whose second character is missing or is no suit is
    shown as its first character followed by the text "undefined". *)
Theorem cardLabel_of_cards :
  (∀ c, truthy c = false → cardLabel c = "--")
  ∧ (∀ su, su ∈ SUITS ↔ is_Some (suitMap !! su))
  ∧ (∀ rk su sym, rk ∈ RANKS → suitMap !! su = Some sym →
       cardLabel (Some (rk +:+ su)) = rk +:+ sym)
  ∧ (∀ c1 c2, c1 ∈ ALL_CARDS → c2 ∈ ALL_CARDS → cardLabel c1 = cardLabel c2 → c1 = c2)
  ∧ (∀ c, c ∈ ALL_CARDS → cardLabel c ≠ "--")
  ∧ (∀ s, truthy (Some s) = true → char_at s 1 ≫= (λ k, suitMap !! k) = None →
       cardLabel (Some s) = to_text (char_at s 0) +:+ "undefined").
Proof.
  split_and!.
  - intros [s|] H; [|done]. unfold cardLabel. by rewrite H.
  - apply suitMap_suits.
  - intros rk su sym Hrk Hsu.
    assert (su ∈ SUITS) as Hin by (apply suitMap_suits; by rewrite Hsu).
    pose proof (Forall_elem _ _ _ (Forall_elem _ _ _ card_labels_table Hrk) Hin) as H.
    cbv beta in H. by rewrite H, Hsu.
  - intros c1 c2. apply fmap_NoDup_inj, NoDup_card_labels.
  - intros c. apply (Forall_elem _ _ _ card_labels_shown).
  - intros s Hs Hsym. unfold cardLabel. rewrite Hs. cbv zeta. by rewrite Hsym.
Qed.

Example cardLabel_samples :
  cardLabel (Some "As") = "A♠" ∧ cardLabel (Some "Td") = "T♦"
  ∧ cardLabel (Some blank) = "--" ∧ cardLabel undefined = "--"
  ∧ cardLabel (Some "A") = "Aundefined" ∧ cardLabel (Some "Ax") = "Aundefined".
Proof. by vm_compute. Qed.

(** ** The cards of a trial, by position *)

Lemma aget_aset a i v j :
  aget (aset a i v) j = if decide (j = i) then v else aget a j.
Proof.
  unfold aset, aget. destruct (decide (i < length a)) as [Hi|Hi].
  - destruct (decide (j = i)) as [->|Hne].
    + by rewrite list_lookup_insert_eq.
    + by rewrite list_lookup_insert_ne.
  - destruct (decide (j < length a)) as [Hj|Hj].
    + rewrite lookup_app_l by done. by rewrite decide_False by lia.
    + rewrite lookup_app_r by lia.
      rewrite (lookup_ge_None_2 a j) by lia.
      destruct (decide (j < i)) as [Hji|Hji].
      * rewrite lookup_app_l by (rewrite length_replicate; lia).
        rewrite lookup_replicate_2 by lia. by rewrite decide_False by lia.
      * rewrite lookup_app_r by (rewrite length_replicate; lia).
        rewrite length_replicate.
        destruct (decide (j = i)) as [->|Hne].
        -- by replace (i - length a - (i - length a)) with 0 by lia.
        -- replace (j - length a - (i - length a)) with (S (j - i - 1)) by lia. done.
Qed.

Lemma unknown_before_S b n :
  unknown_before b (S n)
  = unknown_before b n + (if truthy (aget b n) then 0 else 1).
Proof.
  unfold unknown_before. rewrite seq_S, filter_app, length_app. f_equal.
  simpl. destruct (truthy (aget b n)) eqn:H.
  - rewrite filter_cons_False; [done|]. rewrite H. simpl. tauto.
  - rewrite filter_cons_True; [done|]. by apply Is_true_false.
Qed.

Lemma fill_positions d b n :
  let '(idx, b') := foldl (fill_step_list d) (0, b) (seq 0 n) in
  idx = unknown_before b n
  ∧ ∀ i, aget b' i
         = if decide (i < n) then
             if truthy (aget b i) then aget b i else aget d (unknown_before b i)
           else aget b i.
Proof.
  induction n as [|n IH].
  - cbn [seq foldl]. split; [done|]. intros i. case_decide; [lia|done].
  - rewrite seq_S, foldl_snoc. cbn [Nat.add].
    destruct (foldl (fill_step_list d) (0, b) (seq 0 n)) as [idx b1].
    destruct IH as [-> IH]. unfold fill_step_list.
    rewrite unknown_before_S.
    assert (aget b1 n = aget b n) as Hn by (rewrite IH; by rewrite decide_False by lia).
    rewrite Hn. destruct (truthy (aget b n)) eqn:Htr.
    + split; [lia|]. intros i. rewrite IH.
      destruct (decide (i < n)), (decide (i < S n)); try lia; try done.
      assert (i = n) as -> by lia. by rewrite Htr.
    + split; [lia|]. intros i. rewrite aget_aset, IH.
      destruct (decide (i = n)) as [->|Hne].
      * rewrite decide_True by lia. by rewrite Htr.
      * destruct (decide (i < n)), (decide (i < S n)); try lia; done.
Qed.

Lemma deal_lookup n d idx p :
  p < n →
  (deal n d idx).1 !! p = Some [aget d (idx + 2 * p); aget d (idx + 2 * p + 1)].
Proof.
  revert idx p. induction n as [|n IH]; intros idx p Hp; [lia|].
  simpl. specialize (IH (S (S idx))).
  destruct (deal n d (S (S idx))) as [rest idx']. simpl in *.
  destruct p as [|p].
  - simpl. by rewrite Nat.add_0_r, Nat.add_1_r.
  - simpl. rewrite IH by lia. repeat f_equal; lia.
Qed.

Lemma trial_of_positions rnd solve known hc bc n k :
  let t := trial_of rnd solve known hc bc n k in
  (∀ i, i < 5 →
     aget (t_simBoard t) i
     = if truthy (aget bc i) then aget bc i
       else aget (t_deck t) (unknown_before bc i))
  ∧ (∀ i, 5 ≤ i → aget (t_simBoard t) i = aget bc i)
  ∧ (∀ p, p < n →
       t_opponents t !! p
       = Some [aget (t_deck t) (unknown_before bc 5 + 2 * p);
               aget (t_deck t) (unknown_before bc 5 + 2 * p + 1)]).
Proof.
  unfold trial_of, fill_list.
  pose proof (fill_positions (shuffled rnd known k) bc 5) as Hfill.
  destruct (foldl _ _ _) as [idx b]. destruct Hfill as [-> Hb].
  pose proof (λ p, deal_lookup n (shuffled rnd known k) (unknown_before bc 5) p) as Hdeal.
  destruct (deal _ _ _) as [opps idx']. cbn [t_simBoard t_deck t_opponents fst] in *.
  split_and!.
  - intros i Hi. rewrite Hb. by rewrite decide_True.
  - intros i Hi. rewrite Hb. by rewrite decide_False by lia.
  - done.
Qed.

(** X3.  Where a trial takes its cards from the shuffled deck.  Among
    the first five board slots, one that holds a card keeps it and a
    blank one gets the deck card whose index is the number of blank
    slots before it; slots from index 5 on are copied as they are.
    Opponent [p] gets the deck cards at indices [u + 2p] and
    [u + 2p + 1], where [u] is the number of blank slots among the first
    five. *)
Theorem trial_draw_order rnd solve req w :
  hero req < length (w_heap w) →
  board req < length (w_heap w) →
  let bc := hread (w_heap w) (board req) in
  Forall (λ t,
    (∀ i, i < 5 →
       aget (t_simBoard t) i
       = if truthy (aget bc i) then aget bc i
         else aget (t_deck t) (unknown_before bc i))
    ∧ (∀ i, 5 ≤ i → aget (t_simBoard t) i = aget bc i)
    ∧ (∀ p, p < length (t_opponents t) →
         t_opponents t !! p
         = Some [aget (t_deck t) (unknown_slots bc + 2 * p);
                 aget (t_deck t) (unknown_slots bc + 2 * p + 1)]))
    (trace (simulateEquity rnd solve req w)).
Proof.
  intros Hh Hb bc.
  destruct (decide (rejected req (w_heap w))) as [Hr|Hr].
  - rewrite trace_rejected by done. constructor.
  - apply valid_or_rejected in Hr. apply Forall_forall. intros t Ht.
    destruct (trace_trial_of rnd solve req w Hr Hh Hb t Ht) as [k ->].
    pose proof (trial_of_positions rnd solve (known_of req (w_heap w))
                  (hread (w_heap w) (hero req)) bc
                  (Z.to_nat (players req - 1)) k) as (H1 & H2 & H3).
    split_and!; [done..|]. intros p Hp. apply H3.
    revert Hp. unfold trial_of.
    destruct (fill_list _ _ _) as [idx b].
    pose proof (deal_spec (Z.to_nat (players req - 1))
                  (shuffled rnd (known_of req (w_heap w)) k) idx) as Hd.
    destruct (deal _ _ _) as [opps idx']. simpl. destruct Hd as (_ & -> & _). done.
Qed.

Lemma trial_draw_order_witness :
  let bc := [Some "Qd"; Some "Jd"; Some "Td"; Some blank; Some blank] in
  Forall (λ t,
    (∀ i, i < 5 →
       aget (t_simBoard t) i
       = if truthy (aget bc i) then aget bc i
         else aget (t_deck t) (unknown_before bc i))
    ∧ (∀ i, 5 ≤ i → aget (t_simBoard t) i = aget bc i)
    ∧ (∀ p, p < length (t_opponents t) →
         t_opponents t !! p
         = Some [aget (t_deck t) (unknown_slots bc + 2 * p);
                 aget (t_deck t) (unknown_slots bc + 2 * p + 1)]))
    (trace (simulateEquity sample_source sample_solve sample_request sample_world)).
Proof.
  apply (trial_draw_order sample_source sample_solve sample_request sample_world);
    simpl; lia.
Defined.

(** ** The store after a call *)

Lemma trial_of_arrays rnd solve known hc bc n k :
  let t := trial_of rnd solve known hc bc n k in
  t_deck t = shuffled rnd known k
  ∧ t_simBoard t = (fill_list (shuffled rnd known k) 0 bc).2.
Proof.
  unfold trial_of. destruct (fill_list _ _ _) as [idx b].
  by destruct (deal _ _ _) as [opps idx'].
Qed.

Lemma trial_world rnd solve known req (h : heap) k :
  hero req < length h → board req < length h →
  let t := trial_of rnd solve known (hread h (hero req)) (hread h (board req))
             (Z.to_nat (players req - 1)) k in
  trial rnd solve known req (World h k)
  = (t, World (h ++ [t_deck t; t_simBoard t]) (k + (length (makeDeck known) - 1))).
Proof.
  intros Hh Hb t.
  pose proof (trial_spec rnd solve known req h k Hh Hb) as Hspec.
  pose proof (trial_heap rnd solve known req (World h k)) as Hheap.
  cbv zeta in Hheap. cbn [w_heap w_calls] in Hheap.
  rewrite hread_app_l in Hheap by done.
  destruct (trial_of_arrays rnd solve known (hread h (hero req)) (hread h (board req))
              (Z.to_nat (players req - 1)) k) as [Hd Hsb].
  fold t in Hspec, Hd, Hsb.
  destruct (trial rnd solve known req (World h k)) as [t' w']. simpl in Hspec, Hheap.
  subst t' w'. rewrite Hd, Hsb. by rewrite <-(assoc_L (++)).
Qed.

Lemma trials_world rnd solve n known req c log w :
  hero req < length (w_heap w) → board req < length (w_heap w) →
  let '(_, log', w') := trials rnd solve n known req c log w in
  ∃ new, log' = log ++ new ∧ length new = n
         ∧ w_heap w' = w_heap w ++ (new ≫= λ t, [t_deck t; t_simBoard t])
         ∧ w_calls w' = w_calls w + n * (length (makeDeck known) - 1).
Proof.
  revert c log w. induction n as [|n IH]; intros c log w Hh Hb.
  - simpl. exists []. by rewrite !app_nil_r, Nat.add_0_r.
  - destruct w as [h k]. cbn [w_heap w_calls] in *. cbn [trials].
    rewrite trial_world by done.
    set (t := trial_of rnd solve known (hread h (hero req)) (hread h (board req))
                (Z.to_nat (players req - 1)) k).
    specialize (IH (bump (t_outcome t) c) (log ++ [t])
                  (World (h ++ [t_deck t; t_simBoard t])
                     (k + (length (makeDeck known) - 1)))).
    destruct (trials _ _ _ _ _ _ _ _) as [[c' log'] w'].
    destruct IH as (new & -> & Hlen & Hheap & Hcalls);
      [cbn [w_heap]; rewrite length_app; lia..|].
    cbn [w_heap w_calls] in Hheap, Hcalls.
    exists (t :: new). split_and!.
    + by rewrite <-(assoc_L (++)).
    + simpl. lia.
    + rewrite Hheap. cbn [mbind list_bind]. by rewrite <-(assoc_L (++)).
    + rewrite Hcalls. lia.
Qed.

(** X5.  What a call of [simulateEquity] leaves behind.  The arrays of
    the store stay where they were and each trial adds two after them,
    the deck it shuffled and then its copy of the board; each trial
    draws one random number less than the deck has cards (none for an
    empty deck).  A call that throws adds and draws nothing. *)
Theorem simulateEquity_store_growth rnd solve req w :
  hero req < length (w_heap w) →
  board req < length (w_heap w) →
  let e := simulateEquity rnd solve req w in
  w_heap (final e) = w_heap w ++ (trace e ≫= λ t, [t_deck t; t_simBoard t])
  ∧ w_calls (final e)
    = w_calls w + length (trace e) * (length (makeDeck (known_of req (w_heap w))) - 1).
Proof.
  intros Hh Hb e. unfold e.
  destruct (decide (rejected req (w_heap w))) as [Hr|Hr].
  - destruct (simulateEquity_rejected rnd solve req w Hr) as (msg & -> & _).
    cbn [final trace]. simpl. by rewrite app_nil_r, Nat.add_0_r.
  - apply valid_or_rejected in Hr. rewrite simulateEquity_valid by done.
    pose proof (trials_world rnd solve (passes (iterations req))
                  (known_of req (w_heap w)) req zero_tally [] w Hh Hb) as H.
    destruct (trials _ _ _ _ _ _ _ _) as [[c log] w'].
    destruct H as (new & Hlog & Hlen & Hheap & Hcalls). simpl in Hlog. subst log.
    cbn [final trace]. by rewrite Hlen.
Qed.

Lemma simulateEquity_store_growth_witness :
  let e := simulateEquity sample_source sample_solve sample_request sample_world in
  w_heap (final e) = sample_heap ++ (trace e ≫= λ t, [t_deck t; t_simBoard t])
  ∧ w_calls (final e)
    = 0 + length (trace e) * (length (makeDeck (known_of sample_request sample_heap)) - 1).
Proof.
  apply (simulateEquity_store_growth sample_source sample_solve sample_request sample_world);
    simpl; lia.
Defined.

Example sample_store_growth :
  let e := simulateEquity sample_source sample_solve sample_request sample_world in
  length (w_heap (final e)) = 6 ∧ w_calls (final e) = 92.
Proof. by vm_compute. Qed.

(** ** Selections without repetition *)

Lemma imap_insert {A} (l : list A) i v :
  imap (λ j x, if decide (i = j) then v else x) l = <[i:=v]> l.
Proof.
  apply list_eq. intros j. rewrite list_lookup_imap.
  destruct (decide (i = j)) as [->|Hne].
  - destruct (l !! j) as [x|] eqn:Hx.
    + rewrite list_lookup_insert_eq by (by eapply lookup_lt_Some).
      done.
    + rewrite list_insert_ge by (by apply lookup_ge_None_1). by rewrite Hx.
  - rewrite list_lookup_insert_ne by done. by destruct (l !! j).
Qed.

Lemma cards_truthy c : c ∈ ALL_CARDS → truthy c = true.
Proof.
  intros Hc. eapply (Forall_elem (λ c, truthy c = true)); [|exact Hc].
  apply (bool_decide_unpack _). by vm_compute.
Qed.

Lemma filterBoolean_elem c l : c ∈ filterBoolean l ↔ truthy c = true ∧ c ∈ l.
Proof.
  unfold filterBoolean. rewrite list_elem_of_filter, Is_true_true. tauto.
Qed.

Lemma NoDup_filterBoolean_lookup l i j c :
  NoDup (filterBoolean l) → truthy c = true →
  l !! i = Some c → l !! j = Some c → i = j.
Proof.
  intros Hnd Hc. revert i j Hnd.
  induction l as [|x l IH]; intros i j Hnd Hi Hj; [done|].
  assert (NoDup (filterBoolean l)) as Hnd'.
  { destruct (truthy x) eqn:Hx.
    - rewrite filterBoolean_cons_true in Hnd by done. by apply NoDup_cons_1_2 in Hnd.
    - by rewrite filterBoolean_cons_false in Hnd. }
  assert (∀ k, l !! k = Some c → x ≠ c) as Hhead.
  { intros k Hk ->. rewrite filterBoolean_cons_true in Hnd by done.
    apply NoDup_cons_1_1 in Hnd. apply Hnd, filterBoolean_elem. split; [done|].
    by eapply list_elem_of_lookup_2. }
  destruct i as [|i], j as [|j]; simplify_eq/=.
  - done.
  - by destruct (Hhead j Hj).
  - by destruct (Hhead i Hi).
  - f_equal. by apply IH.
Qed.

Lemma NoDup_filterBoolean_insert l i a c :
  l !! i = Some a → NoDup (filterBoolean l) →
  truthy c = false ∨ c ∉ filterBoolean l ∨ c = a →
  NoDup (filterBoolean (<[i:=c]> l)).
Proof.
  intros Hi Hnd Hc.
  pose proof (lookup_lt_Some _ _ _ Hi) as Hlt.
  rewrite <-(take_drop_middle l i a Hi) in Hnd, Hc.
  rewrite insert_take_drop by done.
  unfold filterBoolean in *. rewrite filter_app in Hnd, Hc |- *.
  rewrite filter_cons in Hnd, Hc |- *.
  set (l1 := filter (λ v, truthy v) (take i l)) in *.
  set (l2 := filter (λ v, truthy v) (drop (S i) l)) in *.
  assert (NoDup (l1 ++ l2)) as Hrest.
  { destruct (decide (truthy a)); [|done].
    rewrite <-Permutation_middle in Hnd. by apply NoDup_cons_1_2 in Hnd. }
  destruct (decide (truthy c)) as [Htc|Htc]; [|done].
  destruct Hc as [Hc|[Hc| ->]].
  - apply Is_true_true in Htc. congruence.
  - rewrite <-Permutation_middle. apply NoDup_cons_2; [|done].
    intros Hin. apply Hc. destruct (decide (truthy a)).
    + rewrite <-Permutation_middle. by right.
    + done.
  - by rewrite decide_True in Hnd.
Qed.

(** ** The setters of the page *)

Lemma set_hero_cards arr p :
  s_board (p_state p) < length (p_heap p) →
  heroCards (set_hero arr p) = arr
  ∧ boardCards (set_hero arr p) = boardCards p
  ∧ p_heap (set_hero arr p) = p_heap p ++ [arr]
  ∧ s_hero (p_state (set_hero arr p)) = length (p_heap p)
  ∧ s_board (p_state (set_hero arr p)) = s_board (p_state p).
Proof.
  intros Hb. unfold heroCards, boardCards, set_hero, p_heap. cbn.
  rewrite hread_app_here. rewrite hread_app_l by done. done.
Qed.

Lemma set_board_cards arr p :
  s_hero (p_state p) < length (p_heap p) →
  heroCards (set_board arr p) = heroCards p
  ∧ boardCards (set_board arr p) = arr
  ∧ p_heap (set_board arr p) = p_heap p ++ [arr]
  ∧ s_hero (p_state (set_board arr p)) = s_hero (p_state p)
  ∧ s_board (p_state (set_board arr p)) = length (p_heap p).
Proof.
  intros Hb. unfold heroCards, boardCards, set_board, p_heap. cbn.
  rewrite hread_app_here. rewrite hread_app_l by done. done.
Qed.

Lemma slot_value_lookup slot p :
  page_ok p → slot_exists slot p = true →
  page_cards p !! slot_index slot = Some (slot_value slot p).
Proof.
  intros (_ & _ & Hh & Hb & _) Hex. unfold page_cards.
  destruct slot as [| |i]; cbn [slot_index slot_value].
  - rewrite lookup_app_l by lia. apply lookup_aget. lia.
  - rewrite lookup_app_l by lia. apply lookup_aget. lia.
  - cbn in Hex. apply bool_decide_eq_true in Hex.
    rewrite lookup_app_r by lia. rewrite Hh.
    replace (2 + i - 2) with i by lia. by apply lookup_aget.
Qed.

Lemma slot_change_cards slot v p :
  page_ok p → slot_exists slot p = true →
  let p' := slot_change slot v p in
  page_cards p' = <[slot_index slot := v]> (page_cards p)
  ∧ length (heroCards p') = 2 ∧ length (boardCards p') = 5
  ∧ s_hero (p_state p') < length (p_heap p')
  ∧ s_board (p_state p') < length (p_heap p')
  ∧ p_heap p `prefix_of` p_heap p'
  ∧ s_players (p_state p') = s_players (p_state p)
  ∧ s_iters (p_state p') = s_iters (p_state p)
  ∧ p_busy p' = p_busy p ∧ p_result p' = p_result p ∧ p_error p' = p_error p.
Proof.
  intros (Hha & Hba & Hh & Hb & _) Hex. unfold page_cards.
  destruct slot as [| |i]; cbn [slot_index slot_change].
  - unfold setHero0.
    destruct (set_hero_cards [v; aget (heroCards p) 1] p Hba) as (-> & -> & -> & -> & ->).
    rewrite length_app. cbn [length].
    split_and!; try done; try lia; [|by eexists].
    destruct (heroCards p) as [|a [|b [|??]]]; simplify_eq/=. done.
  - unfold setHero1.
    destruct (set_hero_cards [aget (heroCards p) 0; v] p Hba) as (-> & -> & -> & -> & ->).
    rewrite length_app. cbn [length].
    split_and!; try done; try lia; [|by eexists].
    destruct (heroCards p) as [|a [|b [|??]]]; simplify_eq/=. done.
  - unfold setBoardAt. rewrite imap_insert.
    destruct (set_board_cards (<[i:=v]> (boardCards p)) p Hha) as (-> & -> & -> & -> & ->).
    rewrite length_app, length_insert. cbn [length].
    split_and!; try done; try lia; [|by eexists].
    rewrite insert_app_r_alt by lia. rewrite Hh. by replace (2 + i - 2) with i by lia.
Qed.

Lemma slot_change_ok slot v p :
  page_ok p → slot_exists slot p = true →
  v = Some blank ∨ (v ∈ ALL_CARDS ∧ isUsed (used p) (slot_value slot p) v = false) →
  page_ok (slot_change slot v p).
Proof.
  intros Hok Hex Hv.
  pose proof (slot_value_lookup slot p Hok Hex) as Hval.
  destruct (slot_change_cards slot v p Hok Hex)
    as (Hcards & Hh & Hb & Hha & Hba & _ & Hpl & _).
  destruct Hok as (_ & _ & _ & _ & Hnd & Hall & Hp).
  unfold page_ok. rewrite Hcards, Hpl. split_and!; try done; try lia.
  - eapply NoDup_filterBoolean_insert; [exact Hval|exact Hnd|].
    destruct Hv as [->|[Hc Hu]]; [by left|right].
    unfold isUsed in Hu. apply andb_false_iff in Hu as [Hu|Hu].
    + left. apply bool_decide_eq_false in Hu. unfold used in Hu.
      by rewrite elem_of_list_to_set in Hu.
    + right. apply bool_decide_eq_false in Hu.
      destruct (decide (v = slot_value slot p)); tauto.
  - apply Forall_insert; [done|]. destruct Hv as [->|[Hc _]]; auto.
Qed.

Lemma initial_page_ok : page_ok initial_page.
Proof.
  unfold page_ok.
  split_and!;
    first [ by vm_compute | cbn; lia | apply (bool_decide_unpack _); by vm_compute ].
Qed.

(** ** The invariant of the page *)

Lemma page_ok_extend p p' ext :
  page_ok p → p_state p' = p_state p → p_heap p' = p_heap p ++ ext → page_ok p'.
Proof.
  intros (Hha & Hba & Hh & Hb & Hnd & Hall & Hp) Hst Hheap.
  assert (heroCards p' = heroCards p) as Hhc.
  { unfold heroCards. rewrite Hst, Hheap. by apply hread_app_l. }
  assert (boardCards p' = boardCards p) as Hbc.
  { unfold boardCards. rewrite Hst, Hheap. by apply hread_app_l. }
  unfold page_ok, page_cards. rewrite Hhc, Hbc, Hst, Hheap, length_app.
  split_and!; try done; lia.
Qed.

Lemma clearAll_ok p :
  (2 <= s_players (p_state p) <= 10)%Z → page_ok (clearAll p).
Proof.
  intros Hp. unfold page_ok, page_cards, heroCards, boardCards, clearAll, set_board,
    set_hero, p_heap. cbn.
  rewrite !length_app. cbn [length].
  replace (length (w_heap (p_world p)) + 1) with (length (w_heap (p_world p) ++ [[Some blank; Some blank]]))
    by (rewrite length_app; done).
  rewrite hread_app_here.
  rewrite hread_app_l by (rewrite length_app; simpl; lia).
  rewrite hread_app_here.
  split_and!; try done; try (rewrite ?length_app; simpl; lia).
  - apply (bool_decide_unpack _). by vm_compute.
  - apply (bool_decide_unpack _). by vm_compute.
Qed.

Section PageInvariant.
Variable rnd : RandomSource.
Variable solve : list val → Z.

Lemma click_run_heap p :
  p_state (click_run rnd solve p) = p_state p
  ∧ ∃ ext, p_heap (click_run rnd solve p) = p_heap p ++ ext.
Proof.
  unfold click_run. destruct (p_busy p).
  - split; [done|]. exists []. by rewrite app_nil_r.
  - destruct (simulateEquity_heap rnd solve (run_request (p_state p)) (p_world p))
      as [ext Hext].
    fold (run rnd solve (p_state p) (p_world p)) in Hext.
    destruct (completion (run rnd solve (p_state p) (p_world p)));
      (split; [done|]); exists ext; exact Hext.
Qed.

Lemma handle_ok p ev : page_ok p → page_ok (handle rnd solve p ev).
Proof.
  intros Hok. destruct ev as [slot c|slot| |x|x|]; cbn [handle].
  - destruct (slot_exists slot p) eqn:Hex; [|done].
    destruct (bool_decide (c ∈ ALL_CARDS)) eqn:Hc; [|done].
    destruct (isUsed (used p) (slot_value slot p) c) eqn:Hu; cbn [andb negb]; [done|].
    apply slot_change_ok; [done..|]. right.
    split; [|done]. by apply bool_decide_eq_true in Hc.
  - destruct (slot_exists slot p) eqn:Hex; [|done].
    apply slot_change_ok; auto.
  - apply clearAll_ok. apply Hok.
  - destruct Hok as (Hha & Hba & Hh & Hb & Hnd & Hall & Hp).
    unfold page_ok. split_and!; try done; cbn; lia.
  - destruct Hok as (Hha & Hba & Hh & Hb & Hnd & Hall & Hp).
    unfold page_ok. split_and!; try done; cbn; lia.
  - destruct (click_run_heap p) as [Hst [ext Hext]].
    by eapply page_ok_extend.
Qed.

Lemma foldl_handle_ok p evs :
  page_ok p → page_ok (foldl (handle rnd solve) p evs).
Proof.
  revert p. induction evs as [|ev evs IH]; intros p Hok; [done|].
  simpl. by apply IH, handle_ok.
Qed.

(** X8.  An invariant of the page.  Whatever the user does (picking an
    enabled option, clearing a picker, resetting, typing counts,
    running), the page keeps two hole-card slots and five board slots,
    each blank or one of the 52 cards, no card is selected twice, and
    the player count is within [2..10]. *)
Theorem page_stays_ok evs : page_ok (after rnd solve evs).
Proof. apply foldl_handle_ok, initial_page_ok. Qed.

Lemma handle_prefix p ev : p_heap p `prefix_of` p_heap (handle rnd solve p ev).
Proof.
  destruct ev as [slot c|slot| |x|x|]; cbn [handle].
  - destruct (_ && _ && _); [|done].
    destruct slot; unfold slot_change, setHero0, setHero1, setBoardAt, set_hero, set_board,
      p_heap; cbn; by eexists.
  - destruct (slot_exists slot p); [|done].
    destruct slot; unfold slot_change, setHero0, setHero1, setBoardAt, set_hero, set_board,
      p_heap; cbn; by eexists.
  - unfold clearAll, set_hero, set_board, p_heap. cbn.
    rewrite <-(assoc_L (++)). by eexists.
  - done.
  - done.
  - destruct (click_run_heap p) as [_ [ext Hext]]. by exists ext.
Qed.

(** X11.  The handlers never write to an array that exists: after any
    sequence of events, from any page, the store is the earlier one
    with new arrays after it. *)
Theorem handlers_keep_old_arrays p evs :
  p_heap p `prefix_of` p_heap (foldl (handle rnd solve) p evs).
Proof.
  revert p. induction evs as [|ev evs IH]; intros p; [done|].
  simpl. etrans; [apply (handle_prefix p ev)|apply IH].
Qed.

End PageInvariant.

(** ** The hands of a trial *)

Lemma concat_split {A} (o : list A) (opps : list (list A)) :
  o ∈ opps → ∃ l1 l2, concat opps = l1 ++ o ++ l2.
Proof.
  intros (a & b & ->)%list_elem_of_split.
  exists (concat a), (concat b). by rewrite concat_app, concat_cons.
Qed.

Lemma hand_NoDup (sb o rest1 rest2 : list val) :
  NoDup (sb ++ rest1 ++ o ++ rest2) → NoDup (o ++ sb).
Proof.
  rewrite !NoDup_app. setoid_rewrite elem_of_app.
  intros (Hsb & Hdis & _ & _ & Ho & _). split_and!; [done| |done].
  intros x Hx Hx'. apply (Hdis x Hx'). rewrite ?elem_of_app. tauto.
Qed.

(** X7.  The hands given to the evaluator.  For a valid request with two
    hole cards and at most five board entries, every selection being
    one of the 52 cards, each trial solves one hand for the hero and one
    per opponent, each of exactly seven distinct cards out of the 52,
    and the outcome of the trial is the classification of these hands. *)
Theorem hands_are_seven_distinct_cards rnd solve req w :
  valid_request req (w_heap w) →
  well_formed req (w_heap w) →
  Forall (λ c, c ∈ ALL_CARDS) (selected req (w_heap w)) →
  Forall (λ t,
    t_outcome t = classify solve (hread (w_heap w) (hero req))
                    (t_simBoard t) (t_opponents t)
    ∧ Forall (λ hand, length hand = 7 ∧ NoDup hand ∧ Forall (λ c, c ∈ ALL_CARDS) hand)
        (hands_solved (hread (w_heap w) (hero req)) t))
    (trace (simulateEquity rnd solve req w)).
Proof.
  intros Hv Hwf Hsel. apply Forall_forall. intros t Ht.
  pose proof (trace_sound rnd solve req w Hv Hwf t Ht) as Hs. cbv zeta in Hs.
  destruct Hs as (_ & Hsb & _ & Ho2 & _ & _ & _ & Hcards & Hnd & Hdealt).
  destruct Hwf as (Hh & Hb & Hhl & Hbl). pose proof Hv as (_ & _ & H0 & H1).
  set (hc := hread (w_heap w) (hero req)) in *.
  set (bc := hread (w_heap w) (board req)) in *.
  assert (selected req (w_heap w) = hc ++ filterBoolean bc) as Hsplit
    by (by apply selected_split).
  rewrite Hsplit in Hsel. apply Forall_app in Hsel as [Hhero Hboard].
  assert (Forall (λ c, c ∈ ALL_CARDS) (t_simBoard t ++ concat (t_opponents t))) as Hall.
  { rewrite Hcards. apply Forall_app. split; [done|].
    apply Forall_forall. intros c Hc. by apply Hdealt. }
  apply Forall_app in Hall as [Hallb Hallo].
  split.
  - destruct (trace_trial_of rnd solve req w Hv Hh Hb t Ht) as [k ->].
    apply trial_of_outcome.
  - unfold hands_solved. apply Forall_cons. split.
    + split_and!.
      * rewrite length_app. lia.
      * rewrite (assoc_L (++)) in Hnd. by apply NoDup_app in Hnd as (? & _ & _).
      * by apply Forall_app.
    + apply Forall_fmap, Forall_forall. intros o Ho. simpl.
      destruct (concat_split o _ Ho) as (l1 & l2 & Hcat).
      split_and!.
      * rewrite length_app, Hsb. by rewrite (Forall_elem _ _ _ Ho2 Ho).
      * apply NoDup_app in Hnd as (_ & _ & Hnd). rewrite Hcat in Hnd.
        by eapply hand_NoDup.
      * apply Forall_app. split; [|done]. rewrite Hcat in Hallo.
        by apply Forall_app in Hallo as [_ [? _]%Forall_app].
Qed.

Lemma hands_are_seven_distinct_cards_witness :
  Forall (λ t,
    t_outcome t = classify sample_solve [Some "As"; Some "Ks"]
                    (t_simBoard t) (t_opponents t)
    ∧ Forall (λ hand, length hand = 7 ∧ NoDup hand ∧ Forall (λ c, c ∈ ALL_CARDS) hand)
        (hands_solved [Some "As"; Some "Ks"] t))
    (trace (simulateEquity sample_source sample_solve sample_request sample_world)).
Proof.
  apply (hands_are_seven_distinct_cards sample_source sample_solve
           sample_request sample_world).
  - apply sample_valid.
  - apply sample_well_formed.
  - apply (bool_decide_unpack _). by vm_compute.
Defined.

(** ** The run button and the pickers *)

Lemma page_request p :
  page_ok p →
  let req := run_request (p_state p) in
  well_formed req (p_heap p)
  ∧ NoDup (selected req (p_heap p))
  ∧ (2 <= players req <= 10)%Z
  ∧ Forall (λ c, c ∈ ALL_CARDS) (selected req (p_heap p)).
Proof.
  intros (Hha & Hba & Hh & Hb & Hnd & Hall & Hp). cbv zeta.
  change (selected (run_request (p_state p)) (p_heap p))
    with (filterBoolean (page_cards p)).
  split; [|split; [done|split; [done|]]].
  - unfold well_formed. cbn [run_request hero board].
    fold (heroCards p) (boardCards p). split_and!; try done. lia.
  - apply Forall_forall. intros c [Htr Hc]%filterBoolean_elem.
    pose proof (Forall_elem _ _ _ Hall Hc) as [->|]; [|done]. by vm_compute in Htr.
Qed.

Lemma slot_change_ui slot v p :
  p_busy (slot_change slot v p) = p_busy p
  ∧ p_result (slot_change slot v p) = p_result p
  ∧ p_error (slot_change slot v p) = p_error p
  ∧ w_calls (p_world (slot_change slot v p)) = w_calls (p_world p).
Proof. by destruct slot. Qed.

Section RunButton.
Variable rnd : RandomSource.
Variable solve : list val → Z.

Lemma click_run_cases p :
  page_ok p → p_busy p = false →
  let e := run rnd solve (p_state p) (p_world p) in
  let p' := click_run rnd solve p in
  p_error p' = blank
  ∧ (truthy (slot_value Hole0 p) = true → truthy (slot_value Hole1 p) = true →
       ∃ r, completion e = Returned r ∧ p_result p' = Some r ∧ p_busy p' = false
            ∧ res_iterations r = clampIterations (s_iters (p_state p))
            ∧ p_world p' = final e)
  ∧ (truthy (slot_value Hole0 p) = false ∨ truthy (slot_value Hole1 p) = false →
       completion e = Threw hero_message ∧ p_result p' = None ∧ p_busy p' = true
       ∧ p_world p' = p_world p).
Proof.
  intros Hok Hbusy e p'.
  destruct (page_request p Hok) as (Hwf & Hnd & Hp & _).
  unfold p', click_run. rewrite Hbusy. fold e. split_and!.
  - by destruct (completion e).
  - intros H0 H1.
    assert (valid_request (run_request (p_state p)) (w_heap (p_world p))) as Hv.
    { unfold valid_request. split_and!; try done; try apply Hp.
      - by apply Is_true_true.
      - by apply Is_true_true. }
    unfold e, run. rewrite simulateEquity_valid by done.
    destruct (trials _ _ _ _ _ _ _ _) as [[c log] w']. cbn [completion final].
    eexists. split_and!; done.
  - intros Hmiss.
    destruct (first_failing_guard rnd solve (run_request (p_state p)) (p_world p))
      as (_ & _ & Hhero & _).
    assert (completion e = Threw hero_message) as Hthrow.
    { apply Hhero; [done|lia|].
      destruct Hmiss as [H|H]; [left|right]; by apply Is_true_false. }
    assert (final e = p_world p) as Hfinal.
    { pose proof (validation_outcome rnd solve (run_request (p_state p)) (p_world p))
        as Hout. cbv zeta in Hout. destruct Hout as (_ & Hthrown & _).
      by destruct (Hthrown hero_message Hthrow) as (_ & _ & _ & ?). }
    clear Hhero. subst e. rewrite Hthrow, Hfinal. done.
Qed.

(** X9.  The run button on a page that is not busy, after any sequence
    of events.  The request built by [run] is well formed.  When both
    hole cards are chosen, [simulateEquity] returns: the result is shown
    with the clamped iteration count and [busy] is reset.  When a hole
    card is blank, the call throws the hole-card message, the only
    rejection the page can reach; the exception leaves the timer
    callback, so that no result and no error is shown, nothing is
    allocated or drawn, and [busy] stays set. *)
Theorem click_run_outcome evs :
  let p := after rnd solve evs in
  p_busy p = false →
  let e := run rnd solve (p_state p) (p_world p) in
  let p' := click_run rnd solve p in
  well_formed (run_request (p_state p)) (p_heap p)
  ∧ p_error p' = blank
  ∧ (truthy (slot_value Hole0 p) = true → truthy (slot_value Hole1 p) = true →
       ∃ r, completion e = Returned r ∧ p_result p' = Some r ∧ p_busy p' = false
            ∧ res_iterations r = clampIterations (s_iters (p_state p))
            ∧ p_world p' = final e)
  ∧ (truthy (slot_value Hole0 p) = false ∨ truthy (slot_value Hole1 p) = false →
       completion e = Threw hero_message ∧ p_result p' = None ∧ p_busy p' = true
       ∧ p_world p' = p_world p).
Proof.
  intros p Hbusy e p'.
  assert (page_ok p) as Hok by apply foldl_handle_ok, initial_page_ok.
  split; [apply (page_request p Hok)|]. by apply click_run_cases.
Qed.

End RunButton.

Lemma click_run_outcome_witness :
  let p := after sample_source sample_solve [ClickClear Hole1] in
  let e := run sample_source sample_solve (p_state p) (p_world p) in
  let p' := click_run sample_source sample_solve p in
  well_formed (run_request (p_state p)) (p_heap p)
  ∧ p_error p' = blank
  ∧ (truthy (slot_value Hole0 p) = true → truthy (slot_value Hole1 p) = true →
       ∃ r, completion e = Returned r ∧ p_result p' = Some r ∧ p_busy p' = false
            ∧ res_iterations r = clampIterations (s_iters (p_state p))
            ∧ p_world p' = final e)
  ∧ (truthy (slot_value Hole0 p) = false ∨ truthy (slot_value Hole1 p) = false →
       completion e = Threw hero_message ∧ p_result p' = None ∧ p_busy p' = true
       ∧ p_world p' = p_world p).
Proof.
  apply (click_run_outcome sample_source sample_solve [ClickClear Hole1]).
  by vm_compute.
Defined.

Example stuck_after_cleared_hole :
  let p := after sample_source sample_solve [ClickClear Hole1; ClickRun] in
  p_busy p = true ∧ p_result p = None ∧ p_error p = blank
  ∧ page_cards p = [Some "As"; Some blank; Some blank; Some blank; Some blank;
                    Some blank; Some blank].
Proof. by vm_compute. Qed.


Section BusyPage.
Variable rnd : RandomSource.
Variable solve : list val → Z.

Lemma handle_ui p ev :
  p_error p = blank → (p_busy p = true → p_result p = None) →
  let q := handle rnd solve p ev in
  p_error q = blank
  ∧ (p_busy q = true → p_result q = None)
  ∧ (p_busy p = true → p_busy q = true ∧ w_calls (p_world q) = w_calls (p_world p)).
Proof.
  intros Herr Hres. cbv zeta. destruct ev as [slot c|slot| |x|x|]; cbn [handle].
  - destruct (_ && _ && _); [|by split_and!].
    destruct (slot_change_ui slot c p) as (-> & -> & -> & ->). by split_and!.
  - destruct (slot_exists slot p); [|by split_and!].
    destruct (slot_change_ui slot (Some blank) p) as (-> & -> & -> & ->). by split_and!.
  - by split_and!.
  - by split_and!.
  - by split_and!.
  - unfold click_run. destruct (p_busy p) eqn:Hb; [split_and!; auto|].
    destruct (completion _); by split_and!.
Qed.

Lemma foldl_handle_ui p evs :
  p_error p = blank → (p_busy p = true → p_result p = None) →
  let q := foldl (handle rnd solve) p evs in
  p_error q = blank
  ∧ (p_busy q = true → p_result q = None)
  ∧ (p_busy p = true → p_busy q = true ∧ w_calls (p_world q) = w_calls (p_world p)).
Proof.
  revert p. induction evs as [|ev evs IH]; intros p Herr Hres; cbv zeta; [by split_and!|].
  cbn [foldl]. destruct (handle_ui p ev Herr Hres) as (Herr' & Hres' & Hbusy').
  destruct (IH _ Herr' Hres') as (? & ? & Hbusy''). split_and!; [done..|].
  intros Hb. destruct (Hbusy' Hb) as [Hb' Hc]. destruct (Hbusy'' Hb') as [? Hc'].
  split; [done|congruence].
Qed.

(** X10.  The page never shows an error message: [error] is blank after
    any sequence of events.  A page left busy shows no result and stays
    so: the run button being disabled, no later event resets [busy],
    shows a result or an error, or draws a random number. *)
Theorem page_never_reports_error evs :
  let p := after rnd solve evs in
  p_error p = blank
  ∧ (p_busy p = true →
     p_result p = None
     ∧ ∀ more, let q := foldl (handle rnd solve) p more in
         p_busy q = true ∧ p_result q = None ∧ p_error q = blank
         ∧ w_calls (p_world q) = w_calls (p_world p)).
Proof.
  intros p.
  destruct (foldl_handle_ui initial_page evs) as (Herr & Hres & _); [done..|].
  fold (after rnd solve evs) in Herr, Hres. fold p in Herr, Hres.
  split; [done|]. intros Hb. split; [by apply Hres|]. intros more q.
  destruct (foldl_handle_ui p more Herr Hres) as (Herr' & Hres' & Hbusy').
  fold q in Herr', Hres', Hbusy'. destruct (Hbusy' Hb) as [Hbq Hcalls].
  split_and!; try done. by apply Hres'.
Qed.

End BusyPage.

Lemma slot_index_inj s1 s2 : slot_index s1 = slot_index s2 → s1 = s2.
Proof. destruct s1, s2; simpl; intros; simplify_eq; try done; f_equal; lia. Qed.

(** X12.  On a page that satisfies the invariant, an option of a picker
    is disabled exactly when its card is the value of another picker of
    the page. *)
Theorem option_disabled_iff p slot c :
  page_ok p → slot_exists slot p = true → c ∈ ALL_CARDS →
  isUsed (used p) (slot_value slot p) c = true
  ↔ ∃ other, other ≠ slot ∧ slot_exists other p = true ∧ slot_value other p = c.
Proof.
  intros Hok Hex Hc.
  pose proof (cards_truthy c Hc) as Htr.
  pose proof (slot_value_lookup slot p Hok Hex) as Hval.
  pose proof Hok as (_ & _ & Hh & Hb & Hnd & _).
  unfold isUsed. rewrite andb_true_iff, !bool_decide_eq_true.
  unfold used. fold (page_cards p). rewrite elem_of_list_to_set, filterBoolean_elem.
  split.
  - intros [[_ [j Hj]%list_elem_of_lookup] Hne].
    assert (j < 7) as Hj7.
    { apply lookup_lt_Some in Hj. unfold page_cards in Hj.
      rewrite length_app in Hj. lia. }
    exists (slot_of_index j).
    assert (slot_index (slot_of_index j) = j) as Hidx by (by destruct j as [|[|?]]).
    assert (slot_exists (slot_of_index j) p = true) as Hex'.
    { destruct j as [|[|i]]; [done..|]. cbn. apply bool_decide_eq_true. lia. }
    pose proof (slot_value_lookup _ p Hok Hex') as Hval'. rewrite Hidx, Hj in Hval'.
    split_and!; [|done|congruence].
    intros <-. congruence.
  - intros (other & Hne & Hex' & <-).
    pose proof (slot_value_lookup other p Hok Hex') as Hval'.
    split; [split; [done|by eapply list_elem_of_lookup_2]|].
    intros Heq. apply Hne, slot_index_inj. rewrite <-Heq in Hval.
    by eapply NoDup_filterBoolean_lookup.
Qed.

Lemma option_disabled_iff_witness :
  isUsed (used initial_page) (slot_value Hole1 initial_page) (Some "As") = true
  ↔ ∃ other, other ≠ Hole1 ∧ slot_exists other initial_page = true
             ∧ slot_value other initial_page = Some "As".
Proof.
  apply (option_disabled_iff initial_page Hole1 (Some "As")).
  - apply initial_page_ok.
  - reflexivity.
  - apply (bool_decide_unpack _). by vm_compute.
Defined.

(** ** Counts that are not whole, and the results panel *)

(** X14.  An iteration count that is not whole.  For a valid request
    with a positive count [n], the loop runs [T] trials, the least whole
    number not below [n], and the counters add up to [T]; the rates
    divide by [n] itself, so that the exact quotients sum to [T / n]:
    to 1 when [n] is whole, and to more than 1 when it is not. *)
Theorem simulateEquity_fractional_count rnd solve req w :
  valid_request req (w_heap w) →
  (0 < iterations req)%Q →
  let e := simulateEquity rnd solve req w in
  let n := iterations req in
  let T := Qceiling n in
  let exact c := (inject_Z c / n)%Q in
  (n <= inject_Z T)%Q ∧ (inject_Z T < n + 1)%Q
  ∧ Z.of_nat (length (trace e)) = T
  ∧ (wins (tally e) + ties (tally e) + losses (tally e))%Z = T
  ∧ (exact (wins (tally e)) + exact (ties (tally e)) + exact (losses (tally e))
     == inject_Z T / n)%Q
  ∧ ((n == inject_Z T)%Q
     → (exact (wins (tally e)) + exact (ties (tally e)) + exact (losses (tally e)) == 1)%Q)
  ∧ (¬ (n == inject_Z T)%Q
     → (1 < exact (wins (tally e)) + exact (ties (tally e)) + exact (losses (tally e)))%Q).
Proof.
  intros Hv Hn e n T exact.
  destruct (counters_of_passes rnd solve req w Hv) as (Hlen & Hsum & _).
  fold e in Hlen, Hsum.
  assert (Z.of_nat (passes n) = T) as HT by (apply passes_ceiling; unfold n; lra).
  fold n in Hlen, Hsum. rewrite HT in Hsum.
  pose proof (Qle_ceiling n) as Hc1. pose proof (Qceiling_lt n) as Hc2. fold T in Hc1, Hc2.
  assert (inject_Z (T - 1) == inject_Z T - 1)%Q as Hm.
  { unfold Z.sub. rewrite inject_Z_plus, inject_Z_opp. ring. }
  rewrite Hm in Hc2. fold n in Hn.
  assert (exact (wins (tally e)) + exact (ties (tally e)) + exact (losses (tally e))
          == inject_Z T / n)%Q as Hq.
  { unfold exact. rewrite <-Hsum, !inject_Z_plus. field. lra. }
  split_and!; try done; try lra.
  - by rewrite Hlen.
  - intros Hw. rewrite Hq, <-Hw. field. lra.
  - intros Hw. rewrite Hq. apply Qlt_shift_div_l; [done|].
    destruct (Qlt_le_dec n (inject_Z T)) as [Hlt|Hge]; [lra|].
    exfalso. apply Hw. lra.
Qed.

Lemma simulateEquity_fractional_count_witness :
  let req := {| players := 3; hero := 0; board := 1; iterations := 3 # 2 |} in
  let e := simulateEquity sample_source sample_solve req sample_world in
  let n := (3 # 2)%Q in
  let T := Qceiling n in
  let exact c := (inject_Z c / n)%Q in
  (n <= inject_Z T)%Q ∧ (inject_Z T < n + 1)%Q
  ∧ Z.of_nat (length (trace e)) = T
  ∧ (wins (tally e) + ties (tally e) + losses (tally e))%Z = T
  ∧ (exact (wins (tally e)) + exact (ties (tally e)) + exact (losses (tally e))
     == inject_Z T / n)%Q
  ∧ ((n == inject_Z T)%Q
     → (exact (wins (tally e)) + exact (ties (tally e)) + exact (losses (tally e)) == 1)%Q)
  ∧ (¬ (n == inject_Z T)%Q
     → (1 < exact (wins (tally e)) + exact (ties (tally e)) + exact (losses (tally e)))%Q).
Proof.
  apply (simulateEquity_fractional_count sample_source sample_solve
           {| players := 3; hero := 0; board := 1; iterations := 3 # 2 |} sample_world).
  - apply sample_valid.
  - by vm_compute.
Defined.

Example one_and_a_half_iterations :
  let req := {| players := 3; hero := 0; board := 1; iterations := 3 # 2 |} in
  let e := simulateEquity sample_source sample_solve req sample_world in
  length (trace e) = 2
  ∧ ∃ r qw qt ql, completion e = Returned r
      ∧ win r = Some qw ∧ tie r = Some qt ∧ loss r = Some ql
      ∧ (13 # 10 < qw + qt + ql)%Q.
Proof.
  cbv zeta. split; [by vm_compute|].
  eexists _, _, _, _. split_and!; by vm_compute.
Qed.

Section ResultsPanel.
Variable rnd : RandomSource.
Variable solve : list val → Z.

Lemma run_result_ok s w r :
  completion (run rnd solve s w) = Returned r → result_ok r.
Proof.
  unfold run. intros Hr.
  destruct (clampIterations_range (s_iters s)) as [Hlo Hhi].
  destruct (decide (rejected (run_request s) (w_heap w))) as [Hrej|Hrej].
  { destruct (simulateEquity_rejected rnd solve _ w Hrej) as (msg & Heq & _).
    rewrite Heq in Hr. done. }
  apply valid_or_rejected in Hrej.
  set (n := iterations (run_request s)).
  assert (1000 <= n)%Q as Hn1 by done. assert (n <= 200000)%Q as Hn2 by done.
  assert (0 < n)%Q as Hpos by lra.
  assert (n <= 2 ^ 53)%Q as Hle.
  { assert (200000 <= 2 ^ 53)%Q by (by vm_compute). lra. }
  destruct (counters_of_passes rnd solve (run_request s) w Hrej) as (_ & Hsum & Hw & Ht & Hl).
  pose proof (count_outcome_nonneg Win (trace (simulateEquity rnd solve (run_request s) w))).
  pose proof (count_outcome_nonneg Tie (trace (simulateEquity rnd solve (run_request s) w))).
  pose proof (count_outcome_nonneg Loss (trace (simulateEquity rnd solve (run_request s) w))).
  assert (0 <= wins (tally (simulateEquity rnd solve (run_request s) w)))%Z as H0w by lia.
  assert (0 <= ties (tally (simulateEquity rnd solve (run_request s) w)))%Z as H0t by lia.
  assert (0 <= losses (tally (simulateEquity rnd solve (run_request s) w)))%Z as H0l by lia.
  pose proof (rates_rounded _ _ _ _ n H0w H0t H0l Hsum Hpos Hle) as Hrates.
  cbv zeta in Hrates.
  destruct Hrates as (_ & Hqw & Hqt & Hql & Hs1 & Hs2 & _ & He0 & He1).
  revert Hr Hqw Hqt Hql Hs1 Hs2 He0 He1. rewrite simulateEquity_valid by done.
  destruct (trials _ _ _ _ _ _ _ _) as [[c log] w']. cbn [tally completion].
  intros [= <-] Hqw Hqt Hql Hs1 Hs2 He0 He1.
  unfold result_ok. cbn [win tie loss equity res_iterations]. fold n.
  split; [done|]. split; [done|].
  rewrite !jsdiv_nonzero by lra. cbn [jsadd jshalf].
  do 4 eexists. split_and!; try reflexivity; try assumption.
  intros Hk. apply He1. unfold n. cbn [run_request iterations]. lra.
Qed.

Lemma handle_result p ev :
  (∀ r, p_result p = Some r → result_ok r) →
  ∀ r, p_result (handle rnd solve p ev) = Some r → result_ok r.
Proof.
  intros Hp r. destruct ev as [slot c|slot| | x | x |]; cbn [handle].
  - destruct (_ && _); [|apply Hp].
    destruct (slot_change_ui slot c p) as (_ & -> & _). apply Hp.
  - destruct (slot_exists slot p); [|apply Hp].
    destruct (slot_change_ui slot (Some blank) p) as (_ & -> & _). apply Hp.
  - done.
  - apply Hp.
  - apply Hp.
  - unfold click_run. destruct (p_busy p); [apply Hp|].
    destruct (completion _) as [r'|msg] eqn:Hc; cbn [p_result]; [|done].
    intros [= <-]. by eapply run_result_ok.
Qed.

Lemma foldl_handle_result p evs :
  (∀ r, p_result p = Some r → result_ok r) →
  ∀ r, p_result (foldl (handle rnd solve) p evs) = Some r → result_ok r.
Proof.
  revert p. induction evs as [|ev evs IH]; intros p Hp; cbn [foldl]; [apply Hp|].
  apply IH. by apply handle_result.
Qed.

(** X13.  Every result the page shows, after any sequence of events,
    comes from a count within [1000, 200000] and holds four rates that
    are numbers, none of them negative: the results panel is never given
    a rate that is not a number.  The win, tie and loss rates sum, up to
    the rounding of each, to the number of trials over the count: to 1
    within [2 ^ -53] when the count typed is whole, and to more than 1
    when it is not.  For a whole count the equity is at most 1. *)
Theorem shown_result_is_finite evs r :
  p_result (after rnd solve evs) = Some r → result_ok r.
Proof. apply foldl_handle_result. intros r' Hr'. discriminate Hr'. Qed.

End ResultsPanel.

Lemma shown_result_is_finite_witness :
  ∃ r, p_result (after sample_source sample_solve [ClickRun]) = Some r ∧ result_ok r.
Proof.
  destruct (click_run_cases sample_source sample_solve initial_page initial_page_ok eq_refl)
    as (_ & Hret & _).
  destruct (Hret eq_refl eq_refl) as (r & _ & Hres & _).
  exists r. split; [exact Hres|].
  exact (shown_result_is_finite sample_source sample_solve [ClickRun] r Hres).
Defined.
